(** * nncg: the code-object nodes and the search action

    A shallow embedding of [nncg/nodes/expressions.py] and
    [nncg/traverse/actions/searchnode.py].  Python objects live in an
    index-addressed store, so that two parents holding the same child hold the
    same address; methods that assign attributes are written in state-passing
    style; methods that can raise return an [outcome]. *)

From Stdlib Require Import ZArith String Ascii List Bool Lia PeanoNat.
From Stdlib Require Import DecimalString DecimalZ Permutation.
Import ListNotations.
Open Scope list_scope.
Open Scope string_scope.

(** ** Outcomes of Python code *)

Inductive exn :=
| KeyError (key : string)
| IndexError
| ValueError
| TypeError
| AttributeError
| AssertionError
| MissingEdgeError (edge : string).

(** [Ok] is a normal return and [Raise] an exception.  [OutOfModel] marks an
    input on which the embedding does not say what Python does (it is neither
    a success nor a failure), [OutOfFuel] a recursion cut by its bound. *)
Inductive outcome (A : Type) :=
| Ok (a : A)
| Raise (e : exn)
| OutOfModel
| OutOfFuel.

Arguments Ok {A} a.
Arguments Raise {A} e.
Arguments OutOfModel {A}.
Arguments OutOfFuel {A}.

Definition bind {A B} (m : outcome A) (k : A -> outcome B) : outcome B :=
  match m with
  | Ok a => k a
  | Raise e => Raise e
  | OutOfModel => OutOfModel
  | OutOfFuel => OutOfFuel
  end.

Notation "x <- m ;; k" := (bind m (fun x => k))
  (at level 61, m at next level, right associativity).

Definition fails {A} (r : outcome A) : Prop := exists e, r = Raise e.

(** An outcome the embedding accounts for: a return or an exception. *)
Definition defined {A} (r : outcome A) : Prop :=
  (exists a, r = Ok a) \/ fails r.

(** ** Python values and their [str] *)

Definition nl : string := String (ascii_of_nat 10) "".

(** [str] of a Python [int]. *)
Definition py_str_int (z : Z) : string :=
  NilEmpty.string_of_int (Z.to_int z).

(** The values that reach [str] or [format] in the modelled methods.
    [PyOpaque] stands for an object whose text is not modelled (a list, an
    array, an edge table). *)
Inductive pyval :=
| PyNone
| PyBool (b : bool)
| PyInt (z : Z)
| PyStr (s : string)
| PyOpaque.

Definition py_str (v : pyval) : outcome string :=
  match v with
  | PyNone => Ok "None"
  | PyBool true => Ok "True"
  | PyBool false => Ok "False"
  | PyInt z => Ok (py_str_int z)
  | PyStr s => Ok s
  | PyOpaque => OutOfModel
  end.

(** [sep.join(l)]. *)
Definition join (sep : string) (l : list string) : string :=
  String.concat sep l.

(** [l[i]] for a non-negative [i]. *)
Definition py_index {A} (l : list A) (i : nat) : outcome A :=
  match nth_error l i with
  | Some x => Ok x
  | None => Raise IndexError
  end.

(** ** Insertion-ordered dictionaries with string keys *)

Definition dict (V : Type) := list (string * V).

Fixpoint dict_get {V} (d : dict V) (k : string) : option V :=
  match d with
  | [] => None
  | (k', v) :: r => if String.eqb k' k then Some v else dict_get r k
  end.

(** [d[k] = v]: a present key keeps its place, a new key goes last. *)
Fixpoint dict_set {V} (d : dict V) (k : string) (v : V) : dict V :=
  match d with
  | [] => [(k, v)]
  | (k', v') :: r =>
      if String.eqb k' k then (k, v) :: r else (k', v') :: dict_set r k v
  end.

Definition dict_keys {V} (d : dict V) : list string := map fst d.
Definition dict_values {V} (d : dict V) : list V := map snd d.

(** ** [str.format]

    The scanner follows CPython's [MarkupIterator]: [{{] and [}}] are
    literal braces, a lone brace is a [ValueError], a replacement field runs
    to the next [}].  A field with an empty name takes the next positional
    argument, a decimal name the argument of that position, any other name a
    keyword argument.  Attribute and index access, conversions and format
    specifications (the characters [.], [[], [!] and [:] inside a field) are
    outside the model.  Text is ASCII. *)

Inductive token :=
| TLit (c : ascii)
| TField (name : string)
| TAuto
| TIndex (i : Z)
| TRaise (e : exn)
| TOutOfModel.

Definition is_digit (c : ascii) : bool :=
  let n := nat_of_ascii c in (48 <=? n)%nat && (n <=? 57)%nat.

Definition digit_val (c : ascii) : Z := Z.of_nat (nat_of_ascii c) - 48.

Definition PY_SSIZE_T_MAX : Z := 2 ^ 63 - 1.

(** [get_integer]: [None] when the text is not a decimal number. *)
Fixpoint get_integer (acc : Z) (s : string) : option (outcome Z) :=
  match s with
  | EmptyString => Some (Ok acc)
  | String c r =>
      if is_digit c then
        if (acc >? (PY_SSIZE_T_MAX - digit_val c) / 10)%Z
        then Some (Raise ValueError)
        else get_integer (acc * 10 + digit_val c) r
      else None
  end.

Definition field_token (name : string) : token :=
  match name with
  | EmptyString => TAuto
  | _ =>
      match get_integer 0 name with
      | Some (Ok i) => TIndex i
      | Some (Raise e) => TRaise e
      | Some _ => TOutOfModel
      | None => TField name
      end
  end.

Definition ch (s : string) : ascii :=
  match s with String c _ => c | EmptyString => zero end.

Definition lbrace : ascii := ch "{".
Definition rbrace : ascii := ch "}".

Definition field_special (c : ascii) : bool :=
  Ascii.eqb c (ch "[") || Ascii.eqb c (ch ".")
  || Ascii.eqb c (ch ":") || Ascii.eqb c (ch "!").

(** [scan None s] reads literal text, [scan (Some acc) s] is inside a
    replacement field whose name so far is [acc].  The token list stops at the
    first error, as the iterator does. *)
Fixpoint scan (st : option string) (s : string) : list token :=
  match st, s with
  | None, EmptyString => []
  | None, String c r =>
      if Ascii.eqb c lbrace then
        match r with
        | EmptyString => [TRaise ValueError]
        | String c' r' =>
            if Ascii.eqb c' lbrace then TLit lbrace :: scan None r'
            else scan (Some "") r
        end
      else if Ascii.eqb c rbrace then
        match r with
        | EmptyString => [TRaise ValueError]
        | String c' r' =>
            if Ascii.eqb c' rbrace then TLit rbrace :: scan None r'
            else [TRaise ValueError]
        end
      else TLit c :: scan None r
  | Some acc, EmptyString => [TRaise ValueError]
  | Some acc, String c r =>
      if Ascii.eqb c rbrace then field_token acc :: scan None r
      else if Ascii.eqb c lbrace then [TRaise ValueError]
      else if field_special c then [TOutOfModel]
      else scan (Some (acc ++ String c "")) r
  end.

Definition tokens (template : string) : list token := scan None template.

(** Automatic and manual numbering of positional fields cannot be mixed. *)
Inductive auto_number :=
| ANS_INIT
| ANS_AUTO (next : nat)
| ANS_MANUAL.

(** Fields are looked up and rendered from left to right; only the fields the
    template names are rendered. *)
Fixpoint format_tokens {V} (render : V -> outcome string) (args : list V)
    (kwargs : dict V) (an : auto_number) (ts : list token) : outcome string :=
  match ts with
  | [] => Ok ""
  | TLit c :: r =>
      s <- format_tokens render args kwargs an r ;; Ok (String c s)
  | TField k :: r =>
      match dict_get kwargs k with
      | None => Raise (KeyError k)
      | Some v =>
          t <- render v ;;
          s <- format_tokens render args kwargs an r ;;
          Ok (t ++ s)
      end
  | TAuto :: r =>
      match an with
      | ANS_MANUAL => Raise ValueError
      | _ =>
          let i := match an with ANS_AUTO n => n | _ => O end in
          v <- py_index args i ;;
          t <- render v ;;
          s <- format_tokens render args kwargs (ANS_AUTO (S i)) r ;;
          Ok (t ++ s)
      end
  | TIndex i :: r =>
      match an with
      | ANS_AUTO _ => Raise ValueError
      | _ =>
          v <- py_index args (Z.to_nat i) ;;
          t <- render v ;;
          s <- format_tokens render args kwargs ANS_MANUAL r ;;
          Ok (t ++ s)
      end
  | TRaise e :: _ => Raise e
  | TOutOfModel :: _ => OutOfModel
  end.

(** [template.format] applied to the positional arguments [args] and the
    keyword arguments [kwargs], each value rendered by [render]. *)
Definition format {V} (render : V -> outcome string) (template : string)
    (args : list V) (kwargs : dict V) : outcome string :=
  format_tokens render args kwargs ANS_INIT (tokens template).

(** ** numpy *)

(** An element of an array: its dtype and its bit pattern (for a
    floating-point dtype, the IEEE 754 encoding as an unsigned integer). *)
Inductive np_scalar := NpScalar (dtype : string) (bits : Z).

(** An array: dtype, shape, and the elements in row-major order. *)
Record ndarray := { np_dtype : string; np_shape : list Z; np_buffer : list Z }.

Definition flatten (a : ndarray) : list np_scalar :=
  map (NpScalar (np_dtype a)) (np_buffer a).

(** Sizes become 64-bit numpy integers in [np.atleast_1d].  The sum of two
    64-bit integers wraps around as numpy's does; an operand outside the
    64-bit range (where numpy promotes or refuses) is left out. *)
Definition int64_ok (z : Z) : bool :=
  ((- 2 ^ 63 <=? z) && (z <? 2 ^ 63))%Z.

Definition np_int64 (z : Z) : outcome Z :=
  if int64_ok z then Ok z else OutOfModel.

(** The two's-complement value of the low 64 bits. *)
Definition wrap64 (z : Z) : Z := ((z + 2 ^ 63) mod 2 ^ 64 - 2 ^ 63)%Z.

Definition np_add (x y : Z) : outcome Z :=
  a <- np_int64 x ;; b <- np_int64 y ;; Ok (wrap64 (a + b)).

(** [np.atleast_1d(dim)]: [None] becomes a one-element object array. *)
Definition atleast_1d (dim : option (list Z)) : outcome (list (option Z)) :=
  match dim with
  | None => Ok [None]
  | Some l =>
      if forallb int64_ok l then Ok (map Some l) else OutOfModel
  end.

(** *** Printing a floating-point sample *)

(** [np.format_float_scientific(x, precision=p)] with its other arguments at
    their defaults ([unique=True], [trim='k']), as numpy 1.21 and later
    print: the digits come from numpy's Dragon4 routine, which stops as soon
    as the digits printed identify the value among its neighbours and at the
    latest after [p + 1] digits, and no zeros are added. *)

(** The field widths of an IEEE 754 binary format. *)
Record float_format := { mantissa_bits : Z; exponent_bits : Z }.

Definition binary64 : float_format :=
  {| mantissa_bits := 52; exponent_bits := 11 |}.

Definition binary32 : float_format :=
  {| mantissa_bits := 23; exponent_bits := 8 |}.

Definition float_format_of (dtype : string) : option float_format :=
  if String.eqb dtype "float64" then Some binary64
  else if String.eqb dtype "float32" then Some binary32
  else None.

(** A bit pattern taken apart: the value is [mantissa * 2 ^ exponent];
    [unequal_margins] says that the next smaller value is nearer than the
    next larger one. *)
Inductive float_value :=
| FNaN
| FInf (negative : bool)
| FFinite (negative : bool) (mantissa exponent : Z) (unequal_margins : bool).

Definition decode (fm : float_format) (bits : Z) : float_value :=
  let m := mantissa_bits fm in
  let e := exponent_bits fm in
  let negative := Z.testbit bits (m + e) in
  let float_exponent := Z.land (Z.shiftr bits m) (2 ^ e - 1) in
  let float_mantissa := Z.land bits (2 ^ m - 1) in
  let bias := (2 ^ (e - 1) - 1)%Z in
  if (float_exponent =? 2 ^ e - 1)%Z then
    if (float_mantissa =? 0)%Z then FInf negative else FNaN
  else if (float_exponent =? 0)%Z then
    FFinite negative float_mantissa (1 - bias - m) false
  else
    FFinite negative (2 ^ m + float_mantissa) (float_exponent - bias - m)
            (negb (float_exponent =? 1)%Z && (float_mantissa =? 0)%Z).

Module Dragon4.

(** [log10(2)], scaled by [10 ^ 32]. *)
Definition log10_2 : Z := 30102999566398119521373889472449.

(** The estimate of the decimal exponent: [ceil(n * log10(2) - 0.69)]. *)
Definition estimate (n : Z) : Z :=
  (- ((- (n * log10_2 - 69 * 10 ^ 30)) / 10 ^ 32))%Z.

(** Whether the digit the loop stopped at is printed as it is. *)
Definition round_down (low high : bool) (value scale digit : Z) : bool :=
  if Bool.eqb low high then
    match (2 * value ?= scale)%Z with
    | Lt => true
    | Eq => Z.even digit
    | Gt => false
    end
  else low.

(** The digit loop: [room] is the number of digits that may still be stored
    before the last one.  Returns the digits stored, the digit the loop
    stopped at, and whether that digit is rounded down. *)
Fixpoint generate (is_even : bool) (scale : Z) (room : nat)
    (value margin_low margin_high : Z) : list Z * (Z * bool) :=
  let digit := (value / scale)%Z in
  let value := (value mod scale)%Z in
  let low :=
    if is_even then (value <=? margin_low)%Z else (value <? margin_low)%Z in
  let high :=
    if is_even then (scale <=? value + margin_high)%Z
    else (scale <? value + margin_high)%Z in
  match room with
  | O => ([], (digit, round_down low high value scale digit))
  | S room =>
      if low || high then
        ([], (digit, round_down low high value scale digit))
      else
        let r := generate is_even scale room (10 * value) (10 * margin_low)
                          (10 * margin_high) in
        (digit :: fst r, snd r)
  end.

(** Rounding up past a nine: the nines at the end are dropped and the digit
    before them is incremented; [None] when every digit is a nine.  The
    digits are given, and returned, last digit first. *)
Fixpoint carry (rev_digits : list Z) : option (list Z) :=
  match rev_digits with
  | [] => None
  | d :: r => if (d =? 9)%Z then carry r else Some ((d + 1)%Z :: r)
  end.

(** The digits of [mantissa * 2 ^ exponent], at most [cutoff] of them, and
    the decimal exponent of the first digit. *)
Definition digits (mantissa exponent : Z) (unequal_margins : bool)
    (cutoff : nat) : list Z * Z :=
  if (mantissa =? 0)%Z then ([0%Z], 0%Z)
  else
    let is_even := Z.even mantissa in
    let value := if (0 <=? exponent)%Z then (2 * mantissa * 2 ^ exponent)%Z
                 else (2 * mantissa)%Z in
    let scale := if (0 <=? exponent)%Z then 2%Z else (2 ^ (1 - exponent))%Z in
    let margin_low := if (0 <=? exponent)%Z then (2 ^ exponent)%Z else 1%Z in
    let value := if unequal_margins then (2 * value)%Z else value in
    let scale := if unequal_margins then (2 * scale)%Z else scale in
    let margin_high :=
      if unequal_margins then (2 * margin_low)%Z else margin_low in
    let digit_exponent := estimate (Z.log2 mantissa + exponent) in
    let scale :=
      if (0 <? digit_exponent)%Z then (scale * 10 ^ digit_exponent)%Z
      else scale in
    let pow10 :=
      if (digit_exponent <? 0)%Z then (10 ^ (- digit_exponent))%Z else 1%Z in
    let value := (value * pow10)%Z in
    let margin_low := (margin_low * pow10)%Z in
    let margin_high := (margin_high * pow10)%Z in
    let too_low := (scale <=? value)%Z in
    let digit_exponent :=
      if too_low then (digit_exponent + 1)%Z else digit_exponent in
    let ten := if too_low then 1%Z else 10%Z in
    let r := generate is_even scale (pred cutoff) (ten * value)
                      (ten * margin_low) (ten * margin_high) in
    let stored := fst r in
    let digit := fst (snd r) in
    if snd (snd r) then ((stored ++ [digit])%list, (digit_exponent - 1)%Z)
    else if (digit =? 9)%Z then
      match carry (rev stored) with
      | Some d => (rev d, (digit_exponent - 1)%Z)
      | None => ([1%Z], digit_exponent)
      end
    else ((stored ++ [(digit + 1)%Z])%list, (digit_exponent - 1)%Z).

End Dragon4.

(** What is printed for a sample. *)
Inductive float_text :=
| TNaN
| TInf (negative : bool)
| TSci (negative : bool) (digits : list Z) (exponent : Z).

(** The exponent: a sign and at least two digits. *)
Definition exponent_text (e : Z) : string :=
  (if (e <? 0)%Z then "-" else "+")
  ++ (if (Z.abs e <? 10)%Z then "0" else "") ++ py_str_int (Z.abs e).

Definition float_text_string (t : float_text) : string :=
  match t with
  | TNaN => "nan"
  | TInf negative => if negative then "-inf" else "inf"
  | TSci negative ds e =>
      (if negative then "-" else "")
      ++ match ds with
         | [] => ""
         | d :: r => py_str_int d ++ "." ++ join "" (map py_str_int r)
         end
      ++ "e" ++ exponent_text e
  end.

(** The digits numpy prints for [x]; samples of other types than [float64]
    and [float32] are left out. *)
Definition scientific_digits (x : np_scalar) (precision : nat)
    : outcome float_text :=
  match x with
  | NpScalar dtype bits =>
      match float_format_of dtype with
      | None => OutOfModel
      | Some fm =>
          if ((0 <=? bits)
              && (bits <? 2 ^ (1 + mantissa_bits fm + exponent_bits fm)))%Z
          then
            match decode fm bits with
            | FNaN => Ok TNaN
            | FInf negative => Ok (TInf negative)
            | FFinite negative mantissa exponent unequal_margins =>
                let r := Dragon4.digits mantissa exponent unequal_margins
                                        (S precision) in
                Ok (TSci negative (fst r) (snd r))
            end
          else OutOfModel
      end
  end.

Definition np_format_float_scientific (x : np_scalar) (precision : nat)
    : outcome string :=
  t <- scientific_digits x precision ;; Ok (float_text_string t).

(** Modelled from the spec: [nncg.tools._len] is not among the sources; the
    dimension count is zero for a scalar ([dim] is [None]) and the number of
    sizes otherwise. *)
Definition _len (dim : option (list Z)) : nat :=
  match dim with
  | None => 0
  | Some l => length l
  end.

(** ** Variable *)

Module Var.

(** The instance attributes of a [Variable].  [dim_str] and [data_str] do
    not exist until [get_def] assigns them; [temporal_value] always exists
    and holds [PyNone] while no override is set. *)
Record t := mk {
  decl_written : bool;
  index : Z;
  type : string;
  name : string;
  dim : option (list Z);
  alignment : string;
  init_data : option ndarray;
  pads : list (list Z);
  temporal_value : pyval;
  dim_str : option string;
  data_str : option string
}.


Definition with_alignment (a : string) (v : t) : t :=
  mk (decl_written v) (index v) (type v) (name v) (dim v) a (init_data v)
     (pads v) (temporal_value v) (dim_str v) (data_str v).

Definition with_pads (p : list (list Z)) (v : t) : t :=
  mk (decl_written v) (index v) (type v) (name v) (dim v) (alignment v)
     (init_data v) p (temporal_value v) (dim_str v) (data_str v).

Definition with_temporal_value (x : pyval) (v : t) : t :=
  mk (decl_written v) (index v) (type v) (name v) (dim v) (alignment v)
     (init_data v) (pads v) x (dim_str v) (data_str v).

Definition with_dim_str (s : string) (v : t) : t :=
  mk (decl_written v) (index v) (type v) (name v) (dim v) (alignment v)
     (init_data v) (pads v) (temporal_value v) (Some s) (data_str v).

Definition with_data_str (s : string) (v : t) : t :=
  mk (decl_written v) (index v) (type v) (name v) (dim v) (alignment v)
     (init_data v) (pads v) (temporal_value v) (dim_str v) (Some s).

(** [self.__dict__] as [format] sees it: the attributes assigned in
    [__init__] and in [get_def]. *)
Definition __dict__ (self : t) : dict pyval :=
  ( [ ("decl_written", PyBool (decl_written self));
    ("index", PyInt (index self));
    ("type", PyStr (type self));
    ("name", PyStr (name self));
    ("dim", PyOpaque);
    ("alignment", PyStr (alignment self));
    ("init_data", PyOpaque);
    ("pads", PyOpaque);
    ("temporal_value", temporal_value self) ]
  ++ match dim_str self with Some s => [("dim_str", PyStr s)] | None => [] end
  ++ match data_str self with Some s => [("data_str", PyStr s)] | None => [] end
  )%list.

(** ['alignas({})'.format(n)], the one-field template written out. *)
Definition alignas (n : Z) : string := "alignas(" ++ py_str_int n ++ ")".

Definition set_alignment (bytes : Z) (self : t) : t :=
  if (bytes >? 0)%Z then with_alignment (alignas (8 * bytes)) self
  else with_alignment "" self.

Definition __init__ (type name : string) (dim : option (list Z))
    (alignment : Z) (index : Z) (init_data : option ndarray) : t :=
  let self := mk false index type name dim "" None [] PyNone None None in
  let self := set_alignment alignment self in
  let self := mk (decl_written self) (Var.index self) (Var.type self)
                 (Var.name self) (Var.dim self) (Var.alignment self)
                 init_data (pads self) (temporal_value self)
                 (dim_str self) (data_str self) in
  let self := with_pads (repeat [0; 0]%Z (_len dim)) self in
  with_temporal_value PyNone self.

Definition __str__ (self : t) : outcome string :=
  match temporal_value self with
  | PyNone =>
      format py_str "{name}_{index}" []
        [("name", PyStr (name self)); ("index", PyInt (index self))]
  | x => py_str x
  end.

Definition change_padding (pads : list (list Z)) (self : t)
    : outcome unit * t :=
  if Nat.eqb (length pads) (_len (dim self))
  then (Ok tt, with_pads pads self)
  else (Raise AssertionError, self).

(** One bracketed size: [i + j[0] + j[1]] with [i] a numpy integer. *)
Definition dim_entry (i : option Z) (j : list Z) : outcome string :=
  lo <- py_index j 0 ;;
  a <- match i with
       | Some i => np_add i lo
       | None => Raise TypeError
       end ;;
  hi <- py_index j 1 ;;
  b <- np_add a hi ;;
  Ok ("[" ++ py_str_int b ++ "]").

Fixpoint dim_entries (l : list (option Z * list Z)) : outcome (list string) :=
  match l with
  | [] => Ok []
  | (i, j) :: r =>
      s <- dim_entry i j ;;
      ss <- dim_entries r ;;
      Ok (s :: ss)
  end.

Definition _get_dim_str (self : t) : outcome string :=
  dims <- atleast_1d (dim self) ;;
  ss <- dim_entries (combine dims (pads self)) ;;
  Ok (join "" ss).

Definition get_def_template : string :=
  "static {type} {name}_{index} {alignment} {dim_str} = {{ {data_str} }};"
  ++ nl.

(** [format_float_scientific] is numpy's; it is a parameter, called with
    [precision=15] on every element. *)
Definition get_def (format_float_scientific : np_scalar -> nat -> string)
    (write_init_data : bool) (self : t) : outcome (option string) * t :=
  if decl_written self then (Ok None, self)
  else
    match _get_dim_str self with
    | Ok ds =>
        let self := with_dim_str ds self in
        let self :=
          match init_data self with
          | Some a =>
              if write_init_data then
                with_data_str
                  (join "," (map (fun f => format_float_scientific f 15%nat)
                                 (flatten a))) self
              else with_data_str "0" self
          | None => with_data_str "0" self
          end in
        (s <- format py_str get_def_template [] (__dict__ self) ;; Ok (Some s),
         self)
    | Raise e => (Raise e, self)
    | OutOfModel => (OutOfModel, self)
    | OutOfFuel => (OutOfFuel, self)
    end.

Definition get_pointer_decl_template : string :=
  "{type} *{name}_{index} {alignment};" ++ nl.

Definition get_pointer_decl (self : t) : outcome string * t :=
  (format py_str get_pointer_decl_template [] (__dict__ self), self).

End Var.

(** ** Nodes, edges and the store *)

Definition addr := nat.

Module Edge.
Record t := mk { name : string; n_type : string; target : addr }.

Definition eqb (e1 e2 : t) : bool :=
  String.eqb (name e1) (name e2) && String.eqb (n_type e1) (n_type e2)
  && Nat.eqb (target e1) (target e2).
End Edge.

Inductive node_kind :=
| KExpression (snippet : string)
| KConstant (c : pyval)
| KVariable (v : Var.t)
| KIndexedVariable (padding_to_offset : bool).

(** A node: the edge table every [TreeNode] has, and the attributes of its
    class. *)
Record TreeNode := { edges : dict Edge.t; kind : node_kind }.

(** The objects of one compile step; a reference is an index. *)
Definition store := list TreeNode.

Definition alloc (n : TreeNode) (h : store) : addr * store :=
  (length h, (h ++ [n])%list).

Fixpoint update (h : store) (a : addr) (f : TreeNode -> TreeNode) : store :=
  match h, a with
  | [], _ => []
  | n :: r, O => f n :: r
  | n :: r, S a' => n :: update r a' f
  end.

Definition out_edges (n : TreeNode) : list Edge.t := dict_values (edges n).

(** Modelled from the spec: [TreeNode.add_edge] is not among the sources.
    It attaches an edge under its name; re-adding a name replaces the prior
    edge, and insertion order is preserved. *)
Definition add_edge (name : string) (target : addr) (n_type : string)
    (self : TreeNode) : TreeNode :=
  {| edges := dict_set (edges self) name (Edge.mk name n_type target);
     kind := kind self |}.

(** Modelled from the spec: [TreeNode.get_node] is not among the sources.
    It looks up a child by exact edge name and fails if the name is absent. *)
Definition get_node (name : string) (self : TreeNode) : outcome addr :=
  match dict_get (edges self) name with
  | Some e => Ok (Edge.target e)
  | None => Raise (MissingEdgeError name)
  end.

(** Modelled from the spec: [TreeNode.get_node_by_type] is not among the
    sources.  It returns the children whose edge kind matches the tag, in
    attachment order. *)
Definition get_node_by_type (n_type : string) (self : TreeNode) : list addr :=
  map Edge.target
      (filter (fun e => String.eqb (Edge.n_type e) n_type) (out_edges self)).

(** ** Expression, Constant, IndexedVariable *)

Module Expression.
(** The names of the constructor's own parameters: a keyword argument of
    one of these names collides with the parameter and the call raises
    [TypeError] before the body runs. *)
Definition reserved (name : string) : bool :=
  String.eqb name "self" || String.eqb name "snippet".

(** [kwargs] are the keyword arguments in call order; an argument that is a
    plain value rather than a node stands in the store as a [Constant]. *)
Definition __init__ (snippet : string) (kwargs : list (string * addr))
    : outcome TreeNode :=
  if existsb (fun a => reserved (fst a)) kwargs then Raise TypeError
  else
    Ok (fold_left (fun self a => add_edge (fst a) (snd a) "m_expr" self) kwargs
                  {| edges := []; kind := KExpression snippet |}).
End Expression.

(** The object a constructor call returned; the empty expression stands for
    a call that raised. *)
Definition returned (r : outcome TreeNode) : TreeNode :=
  match r with
  | Ok n => n
  | _ => {| edges := []; kind := KExpression "" |}
  end.

Module Constant.
Definition __init__ (c : pyval) : TreeNode :=
  {| edges := []; kind := KConstant c |}.
End Constant.

Module IndexedVariable.

(** [default_n_type] is the kind tag [add_edge] gives an edge when the caller
    names none; [add_edge] is not among the sources, so it is a parameter. *)
Definition __init__ (default_n_type : string) (var : addr)
    (padding_to_offset : bool) : TreeNode :=
  add_edge "var" var default_n_type
           {| edges := []; kind := KIndexedVariable padding_to_offset |}.

Fixpoint set_indices_from (idx : nat) (indices : list addr)
    (self : TreeNode) : TreeNode :=
  match indices with
  | [] => self
  | i :: r =>
      set_indices_from (S idx) r
        (add_edge (py_str_int (Z.of_nat idx)) i "index" self)
  end.

Definition set_indices (indices : list addr) (self : TreeNode) : TreeNode :=
  set_indices_from 0 indices self.

(** [n.index(i)]: the first position holding [i]; nodes compare by
    identity. *)
Fixpoint list_index (n : list addr) (i : addr) : outcome nat :=
  match n with
  | [] => Raise ValueError
  | x :: r => if Nat.eqb x i then Ok O else k <- list_index r i ;; Ok (S k)
  end.

(** [node.pads] for the object at [a]. *)
Definition get_pads (h : store) (a : addr) : outcome (list (list Z)) :=
  match nth_error h a with
  | Some {| kind := KVariable v |} => Ok (Var.pads v)
  | Some _ => Raise AttributeError
  | None => OutOfModel
  end.

(** The body of the loop over [n], starting from the text [s]. *)
Fixpoint subscripts (str : addr -> outcome string) (h : store)
    (self : TreeNode) (padding_to_offset : bool) (n : list addr)
    (todo : list addr) (s : string) : outcome string :=
  match todo with
  | [] => Ok s
  | i :: r =>
      si <- str i ;;
      let s := s ++ ("[" ++ si) in
      s <- (if padding_to_offset then
              var <- get_node "var" self ;;
              pads <- get_pads h var ;;
              k <- list_index n i ;;
              row <- py_index pads k ;;
              lo <- py_index row 0 ;;
              Ok (s ++ (" + " ++ py_str_int lo))
            else Ok s) ;;
      subscripts str h self padding_to_offset n r (s ++ "]")
  end.

Definition __str__ (str : addr -> outcome string) (h : store)
    (self : TreeNode) (padding_to_offset : bool) : outcome string :=
  var <- get_node "var" self ;;
  s <- str var ;;
  let n := get_node_by_type "index" self in
  subscripts str h self padding_to_offset n n s.

End IndexedVariable.

(** [str(node)] for the object at [a].  Modelled from the spec: [Edge] is not
    among the sources; an edge given to [format] renders as its target. *)
Fixpoint str_node (fuel : nat) (h : store) (a : addr) : outcome string :=
  match fuel with
  | O => OutOfFuel
  | S fuel =>
      match nth_error h a with
      | None => OutOfModel
      | Some self =>
          match kind self with
          | KExpression snippet =>
              format (fun e => str_node fuel h (Edge.target e)) snippet []
                     (edges self)
          | KConstant c => py_str c
          | KVariable v => Var.__str__ v
          | KIndexedVariable padding_to_offset =>
              IndexedVariable.__str__ (str_node fuel h) h self
                                      padding_to_offset
          end
      end
  end.

(** ** Traversal *)

(** Modelled from the spec: [TraverseAction] is not among the sources.  An
    action is a pre-order hook, which reports whether to descend, and a
    post-order hook; both work on the action's own state. *)
Record TraverseAction (S : Type) := {
  pre_action : Edge.t -> S -> outcome (bool * S);
  post_action : Edge.t -> S -> outcome S
}.

Arguments pre_action {S} _ _ _.
Arguments post_action {S} _ _ _.

(** The walk over one node's outgoing edges, in attachment order. *)
Fixpoint traverse_edges {S} (descend : addr -> S -> outcome S)
    (action : TraverseAction S) (es : list Edge.t) (s : S) : outcome S :=
  match es with
  | [] => Ok s
  | e :: r =>
      p <- pre_action action e s ;;
      s <- (if fst p then descend (Edge.target e) (snd p) else Ok (snd p)) ;;
      s <- post_action action e s ;;
      traverse_edges descend action r s
  end.

(** Modelled from the spec: [TreeNode.traverse] is not among the sources.
    For every edge: the pre-order hook, then, if it reports descend, the
    target's own outgoing edges, then the post-order hook on the same edge. *)
Fixpoint traverse {S} (fuel : nat) (h : store) (action : TraverseAction S)
    (a : addr) (s : S) : outcome S :=
  match fuel with
  | O => OutOfFuel
  | S fuel =>
      match nth_error h a with
      | None => OutOfModel
      | Some self =>
          traverse_edges (traverse fuel h action) action (out_edges self) s
      end
  end.

(** ** SearchNode *)

Module SearchNode.

Record t := mk {
  result : list (list addr);
  search_for : addr;
  cur_path_stack : list addr
}.

Definition __init__ (search_for : addr) : t := mk [] search_for [].

Definition _pre_action (edge : Edge.t) (self : t) : outcome (bool * t) :=
  Ok (true,
      mk (result self) (search_for self)
         (cur_path_stack self ++ [Edge.target edge])%list).

Definition _post_action (edge : Edge.t) (self : t) : outcome t :=
  let self :=
    if Nat.eqb (Edge.target edge) (search_for self)
    then mk (result self ++ [cur_path_stack self])%list (search_for self)
            (cur_path_stack self)
    else self in
  match cur_path_stack self with
  | [] => Raise IndexError
  | _ => Ok (mk (result self) (search_for self)
                (removelast (cur_path_stack self)))
  end.

(** Modelled from the spec: the hooks the walker calls are those of the
    action's class. *)
Definition action : TraverseAction t :=
  {| pre_action := _pre_action; post_action := _post_action |}.

(** A search: a fresh action, one traversal from [root], the result list. *)
Definition search (fuel : nat) (h : store) (root : addr) (search_for : addr)
    : outcome (list (list addr)) :=
  s <- traverse fuel h action root (__init__ search_for) ;; Ok (result s).

End SearchNode.

(** ** The text of declarations *)

(** What [get_def] returns for dimension text [ds] and initializer text
    [dat]. *)
Definition decl_text (v : Var.t) (ds dat : string) : string :=
  "static " ++ Var.type v ++ " " ++ Var.name v ++ "_"
  ++ py_str_int (Var.index v) ++ " " ++ Var.alignment v
  ++ " " ++ ds ++ " = { " ++ dat ++ " };" ++ nl.

(** What [get_pointer_decl] returns. *)
Definition pointer_text (v : Var.t) : string :=
  Var.type v ++ " *" ++ Var.name v ++ "_"
  ++ py_str_int (Var.index v) ++ " " ++ Var.alignment v ++ ";" ++ nl.

(** The initializer: the samples when there are any and they are asked for,
    a single zero otherwise. *)
Definition data_text (fmt : np_scalar -> nat -> string) (write_init_data : bool)
    (v : Var.t) : string :=
  match Var.init_data v with
  | Some a =>
      if write_init_data
      then join "," (map (fun f => fmt f 15%nat) (flatten a))
      else "0"
  | None => "0"
  end.

Definition bracket (z : Z) : string := "[" ++ py_str_int z ++ "]".

(** The size on each axis: logical size plus leading and trailing pad. *)
Definition padded_size (dj : Z * list Z) : Z :=
  (fst dj + nth 0 (snd dj) 0 + nth 1 (snd dj) 0)%Z.

Definition declared_sizes (v : Var.t) : list Z :=
  match Var.dim v with
  | None => []
  | Some D => map padded_size (combine D (Var.pads v))
  end.

Definition dim_text (v : Var.t) : string :=
  join "" (map bracket (declared_sizes v)).

(** A pad is a leading and a trailing amount, and the padded size stays
    within the 64-bit integers numpy computes with. *)
Definition pad_ok (dj : Z * list Z) : bool :=
  match snd dj with
  | lo :: hi :: _ =>
      int64_ok lo && int64_ok (fst dj + lo) && int64_ok hi
      && int64_ok (fst dj + lo + hi)
  | _ => false
  end.

(** A variable whose padding list has one pad per dimension. *)
Definition well_formed (v : Var.t) : bool :=
  Nat.eqb (length (Var.pads v)) (_len (Var.dim v))
  && match Var.dim v with
     | None => true
     | Some D => forallb int64_ok D && forallb pad_ok (combine D (Var.pads v))
     end.

(** The first [get_def] returns text and sets the flag, the second returns
    no text. *)
Definition declares_once (fmt : np_scalar -> nat -> string) (v : Var.t)
    : Prop :=
  exists text v1,
    Var.get_def fmt true v = (Ok (Some text), v1)
    /\ Var.decl_written v1 = true
    /\ fst (Var.get_def fmt true v1) = Ok None.

(** Every sample is printed in scientific notation with 15 significant
    digits. *)
Definition fifteen_digits (a : ndarray) : Prop :=
  forall f, In f (flatten a) ->
    exists negative ds e,
      scientific_digits f 15 = Ok (TSci negative ds e)
      /\ length ds = 15%nat.


(** ** Examples *)

(** numpy's formatter where the model covers the sample. *)
Definition fmt0 (f : np_scalar) (precision : nat) : string :=
  match np_format_float_scientific f precision with
  | Ok s => s
  | _ => ""
  end.

(** The [float32] values [1.0] to [9.0]. *)
Definition nine_samples : ndarray :=
  {| np_dtype := "float32"; np_shape := [3; 3]%Z;
     np_buffer := [1065353216; 1073741824; 1077936128; 1082130432;
                   1084227584; 1086324736; 1088421888; 1090519040;
                   1091567616]%Z |}.

(** The [float64] values [1.0] and [1/3]. *)
Definition two_samples : ndarray :=
  {| np_dtype := "float64"; np_shape := [2]%Z;
     np_buffer := [4607182418800017408; 4599676419421066581]%Z |}.

Definition third_example : Var.t :=
  Var.__init__ "double" "t" (Some [2]%Z) 0 3 (Some two_samples).

(** The variable of the specification's example: [float w[3][3]], aligned
    to 16 bytes, padded by [[1, 1], [0, 2]]. *)
Definition w_example : Var.t :=
  snd (Var.change_padding [[1; 1]; [0; 2]]%Z
         (Var.__init__ "float" "w" (Some [3; 3]%Z) 16 0 (Some nine_samples))).

Definition scalar_example : Var.t :=
  Var.__init__ "int" "i" None 0 1 None.

(** One axis of the largest 64-bit size, with a leading pad of one. *)
Definition wide_example : Var.t :=
  snd (Var.change_padding [[1; 0]]%Z
         (Var.__init__ "float" "b" (Some [2 ^ 63 - 1]%Z) 0 0 None)).

(** ** Templates *)

(** The names of the keyword fields of a token list. *)
Fixpoint placeholders_of (ts : list token) : list string :=
  match ts with
  | [] => []
  | TField k :: r => k :: placeholders_of r
  | _ :: r => placeholders_of r
  end.

Definition placeholders (snippet : string) : list string :=
  placeholders_of (tokens snippet).

(** A template the model covers everywhere. *)
Definition in_model (ts : list token) : bool :=
  forallb (fun t => match t with TOutOfModel => false | _ => true end) ts.

(** A template made of literal text and keyword fields only. *)
Definition plain (ts : list token) : bool :=
  forallb (fun t => match t with TLit _ | TField _ => true | _ => false end)
          ts.

(** The template with each placeholder replaced by [text] of its name. *)
Fixpoint substitute (text : string -> string) (ts : list token) : string :=
  match ts with
  | [] => ""
  | TLit c :: r => String c (substitute text r)
  | TField k :: r => text k ++ substitute text r
  | _ :: r => substitute text r
  end.

(** Rendering an expression that holds an edge no placeholder names is an
    error. *)
Definition unused_binding_fails (fuel : nat) (h : store) (a : addr) : Prop :=
  forall self snippet,
    nth_error h a = Some self ->
    kind self = KExpression snippet ->
    (exists k, In k (dict_keys (edges self))
               /\ ~ In k (placeholders snippet)) ->
    fails (str_node fuel h a).

(** Two constants, and expressions over them: [{a} + {b}] bound to both,
    [{a}] bound to both, [{a}{c}] bound to both. *)
Definition expr_store : store :=
  [ Constant.__init__ (PyInt 1);
    Constant.__init__ (PyInt 2);
    returned (Expression.__init__ "{a} + {b}" [("a", 0%nat); ("b", 1%nat)]);
    returned (Expression.__init__ "{a}" [("a", 0%nat); ("b", 1%nat)]);
    returned (Expression.__init__ "{a}{c}" [("a", 0%nat); ("b", 1%nat)]) ].

(** An array [A] padded by [[1, 0], [2, 0]], two scalars [i] and [j], the
    access [A[i][i]] through one index node used twice, and the access
    [A[i][j]]. *)
Definition A_example : Var.t :=
  snd (Var.change_padding [[1; 0]; [2; 0]]%Z
         (Var.__init__ "float" "A" (Some [3; 3]%Z) 0 0 None)).

Definition index_store : store :=
  [ {| edges := []; kind := KVariable A_example |};
    {| edges := []; kind := KVariable (Var.__init__ "int" "i" None 0 1 None) |};
    {| edges := []; kind := KVariable (Var.__init__ "int" "j" None 0 2 None) |};
    IndexedVariable.set_indices [1%nat; 1%nat]
      (IndexedVariable.__init__ "next" 0%nat true);
    IndexedVariable.set_indices [1%nat; 2%nat]
      (IndexedVariable.__init__ "next" 0%nat true) ].

(** ** Paths and visits *)

(** A chain of edges leaving [a]: each edge is among the outgoing edges of
    the node the chain has reached. *)
Inductive is_path (h : store) : addr -> list Edge.t -> Prop :=
| path_nil (a : addr) : is_path h a []
| path_cons (a : addr) (self : TreeNode) (e : Edge.t) (p : list Edge.t) :
    nth_error h a = Some self ->
    In e (out_edges self) ->
    is_path h (Edge.target e) p ->
    is_path h a (e :: p).

(** The node a chain from [a] ends at. *)
Definition end_node (a : addr) (p : list Edge.t) : addr :=
  fold_left (fun _ e => Edge.target e) p a.

(** [x] comes before [y] in [l]. *)
Definition before {A} (x y : A) (l : list A) : Prop :=
  exists l1 l2 l3, l = (l1 ++ x :: l2 ++ y :: l3)%list.

(** What a walk has seen: the edges from the root to the edge being
    visited, the visits in the order their pre-order hook ran, and in the
    order their post-order hook ran.  A visit is named by its chain of
    edges from the root. *)
Record visit_log := {
  v_stack : list Edge.t;
  v_pre : list (list Edge.t);
  v_post : list (list Edge.t)
}.

Definition no_visits : visit_log :=
  {| v_stack := []; v_pre := []; v_post := [] |}.

(** An action run together with a record of the hooks the walker calls. *)
Definition instrument {S} (action : TraverseAction S)
    : TraverseAction (S * visit_log) :=
  {| pre_action := fun e st =>
       p <- pre_action action e (fst st) ;;
       let stack := (v_stack (snd st) ++ [e])%list in
       Ok (fst p,
           (snd p,
            {| v_stack := stack;
               v_pre := (v_pre (snd st) ++ [stack])%list;
               v_post := v_post (snd st) |}));
     post_action := fun e st =>
       s <- post_action action e (fst st) ;;
       Ok (s,
           {| v_stack := removelast (v_stack (snd st));
              v_pre := v_pre (snd st);
              v_post := (v_post (snd st) ++ [v_stack (snd st)])%list |}) |}.

(** The visits of one walk from [root], in pre-order and in post-order. *)
Definition visit_order {S} (fuel : nat) (h : store)
    (action : TraverseAction S) (root : addr) (s : S)
    : outcome (list (list Edge.t)) :=
  r <- traverse fuel h (instrument action) root (s, no_visits) ;;
  Ok (v_pre (snd r)).

Definition visit_post_order {S} (fuel : nat) (h : store)
    (action : TraverseAction S) (root : addr) (s : S)
    : outcome (list (list Edge.t)) :=
  r <- traverse fuel h (instrument action) root (s, no_visits) ;;
  Ok (v_post (snd r)).

(** A full traversal: the hooks return, and the pre-order hook always
    reports descend. *)
Definition full {S} (action : TraverseAction S) : Prop :=
  (forall e s, exists s', pre_action action e s = Ok (true, s'))
  /\ (forall e s, exists s', post_action action e s = Ok s').

(** The action that does nothing. *)
Definition idle : TraverseAction unit :=
  {| pre_action := fun _ s => Ok (true, s);
     post_action := fun _ s => Ok s |}.

(** The chains a walk from [a] follows, in pre-order and in post-order. *)
Fixpoint paths_pre (fuel : nat) (h : store) (a : addr) : list (list Edge.t) :=
  match fuel with
  | O => []
  | S fuel =>
      match nth_error h a with
      | None => []
      | Some self =>
          flat_map (fun e => [e] :: map (cons e)
                                        (paths_pre fuel h (Edge.target e)))
                   (out_edges self)
      end
  end.

Fixpoint paths_post (fuel : nat) (h : store) (a : addr)
    : list (list Edge.t) :=
  match fuel with
  | O => []
  | S fuel =>
      match nth_error h a with
      | None => []
      | Some self =>
          flat_map (fun e => (map (cons e)
                                  (paths_post fuel h (Edge.target e))
                              ++ [[e]])%list)
                   (out_edges self)
      end
  end.

(** ** Stores without cycles *)

Fixpoint nodupb (es : list Edge.t) : bool :=
  match es with
  | [] => true
  | e :: r => negb (existsb (Edge.eqb e) r) && nodupb r
  end.

(** Along every edge the rank drops, the target exists, and a node's edges
    are pairwise different (their names are the keys of one table). *)
Definition node_ok (rank : addr -> nat) (h : store) (a : addr)
    (self : TreeNode) : bool :=
  forallb (fun e => (rank (Edge.target e) <? rank a)%nat
                    && (Edge.target e <? length h)%nat)
          (out_edges self)
  && nodupb (out_edges self).

Definition store_ok (rank : addr -> nat) (h : store) : bool :=
  forallb (fun an => node_ok rank h (fst an) (snd an))
          (combine (seq 0 (length h)) h).

(** A constant, a node [S] above it, two nodes [A] and [B] that both hold
    [S], and a root that holds [A] and [B]. *)
Definition diamond : store :=
  [ Constant.__init__ (PyInt 1);
    returned (Expression.__init__ "{t}" [("t", 0%nat)]);
    returned (Expression.__init__ "{s}" [("s", 1%nat)]);
    returned (Expression.__init__ "{s} + 1" [("s", 1%nat)]);
    returned (Expression.__init__ "{a} * {b}" [("a", 2%nat); ("b", 3%nat)]) ].

(** ** SearchNodeByType, SearchNodeByName *)

(** The classes of the nodes, as [type(node)] gives them. *)
Inductive py_class :=
| ClsExpression
| ClsConstant
| ClsVariable
| ClsIndexedVariable.

Definition class_of (k : node_kind) : py_class :=
  match k with
  | KExpression _ => ClsExpression
  | KConstant _ => ClsConstant
  | KVariable _ => ClsVariable
  | KIndexedVariable _ => ClsIndexedVariable
  end.

Definition py_class_eqb (c1 c2 : py_class) : bool :=
  match c1, c2 with
  | ClsExpression, ClsExpression
  | ClsConstant, ClsConstant
  | ClsVariable, ClsVariable
  | ClsIndexedVariable, ClsIndexedVariable => true
  | _, _ => false
  end.

Module SearchNodeByType.

Record t := mk {
  result : list (list addr);
  search_for : py_class;
  cur_path_stack : list addr
}.

(** Inherited from [SearchNode]. *)
Definition __init__ (search_for : py_class) : t := mk [] search_for [].

(** Inherited from [SearchNode]. *)
Definition _pre_action (edge : Edge.t) (self : t) : outcome (bool * t) :=
  Ok (true,
      mk (result self) (search_for self)
         (cur_path_stack self ++ [Edge.target edge])%list).

Definition _post_action (h : store) (edge : Edge.t) (self : t) : outcome t :=
  match nth_error h (Edge.target edge) with
  | None => OutOfModel
  | Some node =>
      let self :=
        if py_class_eqb (class_of (kind node)) (search_for self)
        then mk (result self ++ [cur_path_stack self])%list (search_for self)
                (cur_path_stack self)
        else self in
      match cur_path_stack self with
      | [] => Raise IndexError
      | _ => Ok (mk (result self) (search_for self)
                    (removelast (cur_path_stack self)))
      end
  end.

Definition action (h : store) : TraverseAction t :=
  {| pre_action := _pre_action; post_action := _post_action h |}.

Definition search (fuel : nat) (h : store) (root : addr)
    (search_for : py_class) : outcome (list (list addr)) :=
  s <- traverse fuel h (action h) root (__init__ search_for) ;;
  Ok (result s).

End SearchNodeByType.

Module SearchNodeByName.

Record t := mk {
  result : list (list addr);
  search_for : string;
  cur_path_stack : list addr
}.

(** Inherited from [SearchNode]. *)
Definition __init__ (search_for : string) : t := mk [] search_for [].

(** Inherited from [SearchNode]. *)
Definition _pre_action (edge : Edge.t) (self : t) : outcome (bool * t) :=
  Ok (true,
      mk (result self) (search_for self)
         (cur_path_stack self ++ [Edge.target edge])%list).

(** [str] renders a node of the store. *)
Definition _post_action (str : addr -> outcome string) (edge : Edge.t)
    (self : t) : outcome t :=
  s <- str (Edge.target edge) ;;
  let self :=
    if String.eqb s (search_for self)
    then mk (result self ++ [cur_path_stack self])%list (search_for self)
            (cur_path_stack self)
    else self in
  match cur_path_stack self with
  | [] => Raise IndexError
  | _ => Ok (mk (result self) (search_for self)
                (removelast (cur_path_stack self)))
  end.

Definition action (str : addr -> outcome string) : TraverseAction t :=
  {| pre_action := _pre_action; post_action := _post_action str |}.

(** [str_fuel] bounds the rendering of each visited node. *)
Definition search (fuel str_fuel : nat) (h : store) (root : addr)
    (search_for : string) : outcome (list (list addr)) :=
  s <- traverse fuel h (action (str_node str_fuel h)) root
         (__init__ search_for) ;;
  Ok (result s).

End SearchNodeByName.

(** ** Further notions for the properties *)

(** The first position of [i] in [n], or the length of [n]. *)
Fixpoint first_pos (n : list addr) (i : addr) : nat :=
  match n with
  | [] => O
  | x :: r => if Nat.eqb x i then O else S (first_pos r i)
  end.

(** A pad with fewer than two amounts, whose leading amount (if any) numpy
    can still add to the size [d]. *)
Definition short_pad (d : Z) (j : list Z) : bool :=
  match j with
  | [] => true
  | [lo] => int64_ok lo && int64_ok (d + lo)
  | _ => false
  end.

(** The edge table [set_indices] builds for the indices [l], numbered from
    [k]. *)
Definition index_edges (k : nat) (l : list addr) : dict Edge.t :=
  map (fun ia => (py_str_int (Z.of_nat (fst ia)),
                  Edge.mk (py_str_int (Z.of_nat (fst ia))) "index" (snd ia)))
      (combine (seq k (length l)) l).

(** The edge table [Expression.__init__] builds. *)
Definition expr_edges (kwargs : list (string * addr)) : dict Edge.t :=
  map (fun ka => (fst ka, Edge.mk (fst ka) "m_expr" (snd ka))) kwargs.

(** Literal text only. *)
Definition literal (ts : list token) : bool :=
  forallb (fun t => match t with TLit _ => true | _ => false end) ts.

(** A variable [i], the array [A] of [index_store], and [A[i][i]] rendered
    without offset compensation; a scalar indexed with compensation. *)
Definition plain_index_store : store :=
  [ {| edges := []; kind := KVariable A_example |};
    {| edges := []; kind := KVariable (Var.__init__ "int" "i" None 0 1 None) |};
    IndexedVariable.set_indices [1%nat; 1%nat]
      (IndexedVariable.__init__ "next" 0%nat false);
    IndexedVariable.set_indices [0%nat]
      (IndexedVariable.__init__ "next" 1%nat true) ].

(** An expression over an indexed access and a constant, for the searches by
    class and by name. *)
Definition search_store : store :=
  [ {| edges := []; kind := KVariable A_example |};
    {| edges := []; kind := KVariable (Var.__init__ "int" "i" None 0 1 None) |};
    IndexedVariable.set_indices [1%nat; 1%nat]
      (IndexedVariable.__init__ "next" 0%nat true);
    Constant.__init__ (PyInt 2);
    returned (Expression.__init__ "{x} * {c}" [("x", 2%nat); ("c", 3%nat)]);
    returned (Expression.__init__ "{l} + {r}" [("l", 4%nat); ("r", 1%nat)]) ].

(** One round of the loop of [IndexedVariable.__str__]: the text [s] with
    the subscript of the index node [i] appended. *)
Definition subscript_step (str : addr -> outcome string) (h : store)
    (self : TreeNode) (padding_to_offset : bool) (n : list addr) (i : addr)
    (s : string) : outcome string :=
  si <- str i ;;
  let s := s ++ ("[" ++ si) in
  s <- (if padding_to_offset then
          var <- get_node "var" self ;;
          pads <- IndexedVariable.get_pads h var ;;
          k <- IndexedVariable.list_index n i ;;
          row <- py_index pads k ;;
          lo <- py_index row 0 ;;
          Ok (s ++ (" + " ++ py_str_int lo))
        else Ok s) ;;
  Ok (s ++ "]").

(** A subscript without and with offset compensation. *)
Definition subscript_plain (text : addr -> string) (i : addr) : string :=
  "[" ++ text i ++ "]".

Definition subscript_offset (text : addr -> string) (lead : addr -> Z)
    (i : addr) : string :=
  "[" ++ text i ++ " + " ++ py_str_int (lead i) ++ "]".



(** An expression [1 + 2] used as the base of an indexed access, with the
    default offset compensation. *)
Definition expr_index_store : store :=
  [ Constant.__init__ (PyInt 1);
    Constant.__init__ (PyInt 2);
    returned (Expression.__init__ "{a} + {b}" [("a", 0%nat); ("b", 1%nat)]);
    IndexedVariable.set_indices [0%nat]
      (IndexedVariable.__init__ "next" 2%nat true);
    IndexedVariable.set_indices [0%nat]
      (IndexedVariable.__init__ "next" 2%nat false) ].

(** ** Walks, as an action sees them *)

(** Modelled from the spec: the walker is not among the sources.  On an
    edge it visits, it calls the pre-order hook, makes the visits below the
    edge if the hook reports descend, and calls the post-order hook on the
    same edge.  A [visit] is one such visit and a walk is the list of visits
    made at the root; which edges a walker visits, and how often, is left
    open. *)
#[local] Unset Elimination Schemes.
Inductive visit := Visit (edge : Edge.t) (below : list visit).
#[local] Set Elimination Schemes.

Fixpoint run_visit {S} (action : TraverseAction S) (v : visit) (s : S)
    {struct v} : outcome S :=
  match v with
  | Visit e below =>
      p <- pre_action action e s ;;
      s <- (if fst p then
              (fix run (l : list visit) (s : S) {struct l} : outcome S :=
                 match l with
                 | [] => Ok s
                 | v :: r => s <- run_visit action v s ;; run r s
                 end) below (snd p)
            else Ok (snd p)) ;;
      post_action action e s
  end.

Fixpoint run_visits {S} (action : TraverseAction S) (walk : list visit)
    (s : S) : outcome S :=
  match walk with
  | [] => Ok s
  | v :: r => s <- run_visit action v s ;; run_visits action r s
  end.

(** The visits of a walk in the order their post-order hook runs, each with
    the edges of the visits around it, outermost first. *)
Fixpoint visits_of (above : list Edge.t) (v : visit)
    : list (list Edge.t * Edge.t) :=
  match v with
  | Visit e below =>
      (flat_map (visits_of (above ++ [e])) below ++ [(above, e)])%list
  end.

Definition walk_visits (walk : list visit) : list (list Edge.t * Edge.t) :=
  flat_map (visits_of []) walk.

(** The nodes from below the root down to the target of the visited edge. *)
Definition visit_path (ae : list Edge.t * Edge.t) : list addr :=
  map Edge.target (fst ae ++ [snd ae])%list.

(** The visited edge's target is the searched instance. *)
Definition hits (x : addr) (ae : list Edge.t * Edge.t) : bool :=
  Nat.eqb (Edge.target (snd ae)) x.

(** A search over a walk: a fresh [SearchNode], its hooks called as the walk
    says, the result list. *)
Definition search_walk (walk : list visit) (search_for : addr)
    : outcome (list (list addr)) :=
  s <- run_visits SearchNode.action walk (SearchNode.__init__ search_for) ;;
  Ok (SearchNode.result s).

(** The walk the traversal of the specification makes from [a]. *)
Fixpoint forest (fuel : nat) (h : store) (a : addr) : list visit :=
  match fuel with
  | O => []
  | S fuel =>
      match nth_error h a with
      | None => []
      | Some self =>
          map (fun e => Visit e (forest fuel h (Edge.target e)))
              (out_edges self)
      end
  end.

(** Two different visited edges into the searched node give two different
    result paths. *)
Definition two_edges_two_paths (walk : list visit) (x : addr) : Prop :=
  forall e1 e2,
    In e1 (map snd (walk_visits walk)) -> In e2 (map snd (walk_visits walk)) ->
    e1 <> e2 -> Edge.target e1 = x -> Edge.target e2 = x ->
    exists r p1 p2,
      search_walk walk x = Ok r /\ In p1 r /\ In p2 r /\ p1 <> p2.

(** The walk over [A[i][i]]: the edge to the variable, then the two index
    edges, both to the node [i]. *)
Definition twice_indexed_walk : list visit :=
  [ Visit (Edge.mk "var" "next" 0) [];
    Visit (Edge.mk "0" "index" 1) [];
    Visit (Edge.mk "1" "index" 1) [] ].

(** * Properties *)

(** ** Strings and formatting *)

Lemma app_empty_r (s : string) : s ++ "" = s.
Proof. induction s; simpl; congruence. Qed.

Lemma alignas_format (z : Z) :
  format py_str "alignas({})" [PyInt z] [] = Ok (Var.alignas z).
Proof. reflexivity. Qed.

Lemma get_def_format (v : Var.t) (ds dat : string) :
  Var.dim_str v = Some ds -> Var.data_str v = Some dat ->
  format py_str Var.get_def_template [] (Var.__dict__ v)
  = Ok (decl_text v ds dat).
Proof.
  intros Hds Hdat. unfold format, Var.__dict__. rewrite Hds, Hdat.
  vm_compute. reflexivity.
Qed.

Lemma pointer_format (v : Var.t) :
  format py_str Var.get_pointer_decl_template [] (Var.__dict__ v)
  = Ok (pointer_text v).
Proof. unfold format, Var.__dict__. vm_compute. reflexivity. Qed.

Lemma str_format (v : Var.t) :
  Var.temporal_value v = PyNone ->
  Var.__str__ v = Ok (Var.name v ++ "_" ++ py_str_int (Var.index v)).
Proof.
  unfold Var.__str__, format. intros ->.
  change (tokens "{name}_{index}")
    with [TField "name"; TLit (ch "_"); TField "index"].
  simpl. now rewrite app_empty_r.
Qed.

(** ** Variable: dimension text *)

Lemma int64_ok_iff (z : Z) :
  int64_ok z = true <-> (- 2 ^ 63 <= z < 2 ^ 63)%Z.
Proof.
  unfold int64_ok. rewrite andb_true_iff, Z.leb_le, Z.ltb_lt. reflexivity.
Qed.

Lemma wrap64_exact (z : Z) : int64_ok z = true -> wrap64 z = z.
Proof.
  intros H. apply int64_ok_iff in H. unfold wrap64.
  rewrite Z.mod_small; lia.
Qed.

Lemma wrap64_range (z : Z) : int64_ok (wrap64 z) = true.
Proof.
  apply int64_ok_iff. unfold wrap64.
  pose proof (Z.mod_pos_bound (z + 2 ^ 63) (2 ^ 64)). lia.
Qed.

Lemma np_add_exact (x y : Z) :
  int64_ok x = true -> int64_ok y = true -> int64_ok (x + y) = true ->
  np_add x y = Ok (x + y)%Z.
Proof.
  intros Hx Hy Hxy. unfold np_add, np_int64. rewrite Hx. simpl.
  rewrite Hy. simpl. now rewrite (wrap64_exact _ Hxy).
Qed.

Lemma dim_entry_ok (d : Z) (j : list Z) :
  int64_ok d = true -> pad_ok (d, j) = true ->
  Var.dim_entry (Some d) j = Ok (bracket (padded_size (d, j))).
Proof.
  intros Hd Hj. unfold pad_ok in Hj. simpl in Hj.
  destruct j as [|lo [|hi rest]]; try discriminate.
  apply andb_true_iff in Hj as [Hj H4].
  apply andb_true_iff in Hj as [Hj H3].
  apply andb_true_iff in Hj as [H1 H2].
  unfold Var.dim_entry, padded_size. simpl.
  rewrite (np_add_exact d lo Hd H1 H2). simpl.
  rewrite (np_add_exact (d + lo) hi H2 H3 H4). reflexivity.
Qed.

Lemma dim_entries_ok (D : list Z) : forall P : list (list Z),
  forallb int64_ok D = true -> forallb pad_ok (combine D P) = true ->
  Var.dim_entries (combine (map Some D) P)
  = Ok (map bracket (map padded_size (combine D P))).
Proof.
  induction D as [|d D IH]; intros P HD HP; [reflexivity|].
  destruct P as [|j P]; [reflexivity|].
  simpl in HD, HP |- *.
  apply andb_true_iff in HD as [Hd HD].
  apply andb_true_iff in HP as [Hj HP].
  rewrite (dim_entry_ok d j Hd Hj). simpl.
  rewrite (IH P HD HP). reflexivity.
Qed.

Lemma get_dim_str_ok (v : Var.t) :
  well_formed v = true -> Var._get_dim_str v = Ok (dim_text v).
Proof.
  unfold well_formed, Var._get_dim_str, dim_text, declared_sizes.
  intros H. apply andb_true_iff in H as [Hlen H].
  destruct (Var.dim v) as [D|].
  - apply andb_true_iff in H as [HD HP].
    unfold atleast_1d. rewrite HD. simpl.
    rewrite (dim_entries_ok D (Var.pads v) HD HP). reflexivity.
  - simpl in Hlen. apply Nat.eqb_eq in Hlen.
    destruct (Var.pads v); [reflexivity | discriminate].
Qed.



(** What one [get_def] does to a variable not yet flagged as declared. *)
Lemma get_def_fresh (fmt : np_scalar -> nat -> string) (w : bool) (v : Var.t)
    (ds : string) :
  Var.decl_written v = false -> Var._get_dim_str v = Ok ds ->
  Var.get_def fmt w v
  = (Ok (Some (decl_text v ds (data_text fmt w v))),
     Var.with_data_str (data_text fmt w v) (Var.with_dim_str ds v)).
Proof.
  intros Hf Hds. unfold Var.get_def. rewrite Hf, Hds.
  assert (E : forall dat,
    (s <- format py_str Var.get_def_template []
            (Var.__dict__ (Var.with_data_str dat (Var.with_dim_str ds v))) ;;
     Ok (Some s)) = Ok (Some (decl_text v ds dat))).
  { intros dat. rewrite (get_def_format _ ds dat); reflexivity. }
  unfold data_text. cbv zeta.
  change (Var.init_data (Var.with_dim_str ds v)) with (Var.init_data v).
  destruct (Var.init_data v) as [a|]; [destruct w|]; now rewrite E.
Qed.

Lemma get_def_written (fmt : np_scalar -> nat -> string) (w : bool)
    (v : Var.t) :
  Var.decl_written v = true -> Var.get_def fmt w v = (Ok None, v).
Proof. intros H. unfold Var.get_def. now rewrite H. Qed.

Lemma well_formed_after_get_def (dat ds : string) (v : Var.t) :
  well_formed (Var.with_data_str dat (Var.with_dim_str ds v)) = well_formed v.
Proof. reflexivity. Qed.

(** ** Variable: declarations *)

(** C1, as the code has it: [get_def] reads the declared flag and never
    writes it.  On a variable whose flag is set it returns no text.  On a
    variable whose flag is clear (as it is after construction) it leaves the
    flag clear, never returns no text, and a second call returns what the
    first returned; that is the complete declaration when the variable has
    one pad of two amounts per axis and its sizes stay within the 64-bit
    integers. *)
Theorem C1_get_def_reads_flag (fmt : np_scalar -> nat -> string) (w : bool)
    (v : Var.t) :
  (Var.decl_written v = true -> Var.get_def fmt w v = (Ok None, v))
  /\ (Var.decl_written v = false ->
      Var.decl_written (snd (Var.get_def fmt w v)) = false
      /\ fst (Var.get_def fmt w v) <> Ok None
      /\ Var.get_def fmt w (snd (Var.get_def fmt w v)) = Var.get_def fmt w v
      /\ (well_formed v = true ->
          fst (Var.get_def fmt w v)
          = Ok (Some (decl_text v (dim_text v) (data_text fmt w v)))))
  /\ (forall ty nm dm al ix init,
        Var.decl_written (Var.__init__ ty nm dm al ix init) = false).
Proof.
  split; [apply get_def_written | split].
  - intros Hf.
    destruct (Var._get_dim_str v) as [ds|e| |] eqn:Hds.
    + rewrite (get_def_fresh fmt w v ds Hf Hds). cbn [fst snd].
      split; [exact Hf|]. split; [discriminate|]. split.
      * rewrite (get_def_fresh fmt w _ ds); [reflexivity | exact Hf |].
        rewrite <- Hds. reflexivity.
      * intros Hwf. rewrite (get_dim_str_ok v Hwf) in Hds.
        injection Hds as <-. reflexivity.
    + assert (E : Var.get_def fmt w v = (Raise e, v))
        by (unfold Var.get_def; now rewrite Hf, Hds).
      rewrite E. cbn [fst snd]. rewrite E.
      split; [exact Hf|]. split; [discriminate|]. split; [reflexivity|].
      intros Hwf. rewrite (get_dim_str_ok v Hwf) in Hds. discriminate.
    + assert (E : Var.get_def fmt w v = (OutOfModel, v))
        by (unfold Var.get_def; now rewrite Hf, Hds).
      rewrite E. cbn [fst snd]. rewrite E.
      split; [exact Hf|]. split; [discriminate|]. split; [reflexivity|].
      intros Hwf. rewrite (get_dim_str_ok v Hwf) in Hds. discriminate.
    + assert (E : Var.get_def fmt w v = (OutOfFuel, v))
        by (unfold Var.get_def; now rewrite Hf, Hds).
      rewrite E. cbn [fst snd]. rewrite E.
      split; [exact Hf|]. split; [discriminate|]. split; [reflexivity|].
      intros Hwf. rewrite (get_dim_str_ok v Hwf) in Hds. discriminate.
  - intros. unfold Var.__init__, Var.set_alignment.
    destruct (al >? 0)%Z; reflexivity.
Qed.

Lemma C1_get_def_reads_flag_witness :
  fst (Var.get_def fmt0 false w_example)
  = Ok (Some ("static float w_0 alignas(128) [5][5] = { 0 };" ++ nl))
  /\ Var.decl_written (snd (Var.get_def fmt0 false w_example)) = false
  /\ Var.get_def fmt0 false (snd (Var.get_def fmt0 false w_example))
     = Var.get_def fmt0 false w_example.
Proof.
  destruct (C1_get_def_reads_flag fmt0 false w_example) as (_ & H & _).
  destruct (H eq_refl) as (Hf & _ & E2 & E).
  split; [|split].
  - rewrite (E eq_refl). reflexivity.
  - exact Hf.
  - exact E2.
Defined.

(** C1 as stated fails: after the first [get_def] the flag is still clear
    and the second call returns the declaration again. *)
Lemma C1_counterexample : ~ declares_once fmt0 w_example.
Proof.
  intros (text & v1 & E & Hw & _).
  vm_compute in E. injection E as _ <-. discriminate Hw.
Qed.




Lemma wide_example_text :
  fst (Var.get_def fmt0 false wide_example)
  = Ok (Some ("static float b_0  [-9223372036854775808] = { 0 };" ++ nl)).
Proof. vm_compute. reflexivity. Qed.

(** *** The digits of a sample *)

Lemma generate_length (is_even : bool) (scale : Z) : forall (room : nat)
    (value margin_low margin_high : Z),
  (length (fst (Dragon4.generate is_even scale room value margin_low
                                 margin_high)) <= room)%nat.
Proof.
  induction room as [|room IH]; intros value lo hi; cbn [Dragon4.generate].
  - cbv zeta. cbn [fst length]. lia.
  - cbv zeta.
    match goal with |- context [if ?c then _ else _] => destruct c end.
    + cbn [fst length]. lia.
    + cbn [fst length]. specialize (IH (10 * (value mod scale))%Z
                                       (10 * lo)%Z (10 * hi)%Z). lia.
Qed.

Lemma carry_length : forall (l d : list Z),
  Dragon4.carry l = Some d -> (1 <= length d <= length l)%nat.
Proof.
  induction l as [|x l IH]; intros d H; [discriminate|].
  cbn [Dragon4.carry] in H. destruct (x =? 9)%Z.
  - specialize (IH d H). cbn [length]. lia.
  - injection H as <-. cbn [length]. lia.
Qed.

(** Dragon4 prints at least one digit and at most [cutoff]. *)
Lemma digits_length (mantissa exponent : Z) (unequal_margins : bool)
    (precision : nat) :
  (1 <= length (fst (Dragon4.digits mantissa exponent unequal_margins
                                    (S precision))) <= S precision)%nat.
Proof.
  unfold Dragon4.digits. destruct (mantissa =? 0)%Z.
  { cbn [fst length]. lia. }
  cbv zeta. cbn [pred].
  match goal with
  | |- context [Dragon4.generate ?a ?b ?c ?d ?e ?f] =>
      pose proof (generate_length a b c d e f) as Hg;
      set (r := Dragon4.generate a b c d e f) in *
  end.
  destruct (snd (snd r)).
  - cbn [fst]. rewrite length_app. cbn [length]. lia.
  - destruct (fst (snd r) =? 9)%Z.
    + destruct (Dragon4.carry (rev (fst r))) as [d|] eqn:Hc.
      * apply carry_length in Hc. rewrite length_rev in Hc.
        cbn [fst]. rewrite length_rev. lia.
      * cbn [fst length]. lia.
    + cbn [fst]. rewrite length_app. cbn [length]. lia.
Qed.

Lemma scientific_digits_length (f : np_scalar) (precision : nat)
    (negative : bool) (ds : list Z) (e : Z) :
  scientific_digits f precision = Ok (TSci negative ds e) ->
  (1 <= length ds <= S precision)%nat.
Proof.
  destruct f as [dtype bits]. unfold scientific_digits.
  destruct (float_format_of dtype) as [fm|]; [|discriminate].
  match goal with |- context [if ?c then _ else _] => destruct c end;
    [|discriminate].
  destruct (decode fm bits) as [|neg|neg m ex u]; try discriminate.
  intros H. injection H as _ <- _. apply digits_length.
Qed.

(** C7: on a variable with well-formed padding and a clear flag, with
    initializer data present and data writing requested, the initializer is
    every flattened sample, rendered by the formatter at precision 15 and
    joined by commas; where the formatter is numpy's, every sample's text is
    the text of what numpy prints for it, and a finite sample is printed in
    scientific notation with at least one and at most sixteen digits.
    Without data, or without the request, the initializer is the single
    literal [0]. *)
Theorem C7_initializer (fmt : np_scalar -> nat -> string) (w : bool)
    (v : Var.t) :
  well_formed v = true ->
  Var.decl_written v = false ->
  exists dat,
    fst (Var.get_def fmt w v) = Ok (Some (decl_text v (dim_text v) dat))
    /\ (forall a, Var.init_data v = Some a -> w = true ->
          dat = join "," (map (fun f => fmt f 15%nat) (flatten a))
          /\ ((forall f, In f (flatten a) ->
                 np_format_float_scientific f 15 = Ok (fmt f 15%nat)) ->
              forall f, In f (flatten a) ->
                exists t,
                  scientific_digits f 15 = Ok t
                  /\ fmt f 15%nat = float_text_string t
                  /\ forall negative ds e, t = TSci negative ds e ->
                       (1 <= length ds <= 16)%nat))
    /\ (Var.init_data v = None \/ w = false -> dat = "0").
Proof.
  intros Hwf Hf. exists (data_text fmt w v). split; [|split].
  - rewrite (get_def_fresh fmt w v (dim_text v) Hf (get_dim_str_ok v Hwf)).
    reflexivity.
  - intros a Ha ->. split; [unfold data_text; now rewrite Ha|].
    intros Hfmt f Hin. specialize (Hfmt f Hin).
    unfold np_format_float_scientific in Hfmt.
    destruct (scientific_digits f 15) as [t| | |] eqn:Ht;
      try discriminate.
    cbn [bind] in Hfmt. injection Hfmt as Hfmt.
    exists t. split; [reflexivity|]. split; [now symmetry|].
    intros negative ds e ->.
    now apply (scientific_digits_length f 15 negative ds e).
  - intros [Hn | ->]; unfold data_text.
    + now rewrite Hn.
    + now destruct (Var.init_data v).
Qed.

Lemma C7_initializer_witness :
  fst (Var.get_def fmt0 true third_example)
  = Ok (Some ("static double t_3  [2] = { 1.e+00,3.333333333333333e-01 };"
              ++ nl))
  /\ scientific_digits (NpScalar "float64" 4599676419421066581) 15
     = Ok (TSci false [3; 3; 3; 3; 3; 3; 3; 3; 3; 3; 3; 3; 3; 3; 3; 3]%Z (-1)).
Proof.
  destruct (C7_initializer fmt0 true third_example eq_refl eq_refl)
    as (dat & E & Hdat & _).
  destruct (Hdat two_samples eq_refl eq_refl) as [Ed Hs].
  split.
  - rewrite E, Ed. vm_compute. reflexivity.
  - assert (Hfmt : forall f, In f (flatten two_samples) ->
              np_format_float_scientific f 15 = Ok (fmt0 f 15%nat)).
    { intros f [<-|[<-|[]]]; vm_compute; reflexivity. }
    destruct (Hs Hfmt (NpScalar "float64" 4599676419421066581)
                (or_intror (or_introl eq_refl))) as (t & Et & _ & _).
    rewrite Et. vm_compute in Et. injection Et as <-. reflexivity.
Defined.

(** C7 as stated fails: the sample [1.0] is printed with one digit, as
    [1.e+00]. *)
Lemma C7_counterexample : ~ fifteen_digits two_samples.
Proof.
  intros H.
  destruct (H (NpScalar "float64" 4607182418800017408) (or_introl eq_refl))
    as (negative & ds & e & E & Hlen).
  vm_compute in E. injection E as _ <- _. discriminate Hlen.
Qed.

Lemma two_samples_text :
  map (fun f => np_format_float_scientific f 15) (flatten two_samples)
  = [Ok "1.e+00"; Ok "3.333333333333333e-01"].
Proof. vm_compute. reflexivity. Qed.

(** C8: [change_padding] fails exactly when the number of pads differs from
    the dimension count, and then leaves the variable as it was; the padding
    list has one pad per dimension after construction and after every
    successful [change_padding]. *)
Theorem C8_change_padding (v : Var.t) (p : list (list Z)) :
  (fails (fst (Var.change_padding p v))
   <-> length p <> _len (Var.dim v))
  /\ (fails (fst (Var.change_padding p v))
      -> snd (Var.change_padding p v) = v)
  /\ (fst (Var.change_padding p v) = Ok tt ->
      Var.pads (snd (Var.change_padding p v)) = p
      /\ length (Var.pads (snd (Var.change_padding p v)))
         = _len (Var.dim (snd (Var.change_padding p v))))
  /\ (forall ty nm dm al ix init,
        length (Var.pads (Var.__init__ ty nm dm al ix init))
        = _len (Var.dim (Var.__init__ ty nm dm al ix init))).
Proof.
  unfold Var.change_padding.
  destruct (Nat.eqb (length p) (_len (Var.dim v))) eqn:E.
  - apply Nat.eqb_eq in E. simpl. split; [|split; [|split]].
    + split; [intros [e He]; discriminate | intros H; contradiction].
    + intros [e He]; discriminate.
    + intros _. split; [reflexivity | exact E].
    + intros. unfold Var.__init__, Var.set_alignment.
      destruct (al >? 0)%Z; simpl; apply repeat_length.
  - apply Nat.eqb_neq in E. simpl. split; [|split; [|split]].
    + split; [intros _; exact E | intros _; now exists AssertionError].
    + reflexivity.
    + discriminate.
    + intros. unfold Var.__init__, Var.set_alignment.
      destruct (al >? 0)%Z; simpl; apply repeat_length.
Qed.

Lemma C8_change_padding_witness :
  fails (fst (Var.change_padding [[1; 1]]%Z w_example))
  /\ Var.pads (snd (Var.change_padding [[1; 1]]%Z w_example))
     = [[1; 1]; [0; 2]]%Z.
Proof.
  destruct (C8_change_padding w_example [[1; 1]]%Z) as (H1 & H2 & _).
  assert (F : fails (fst (Var.change_padding [[1; 1]]%Z w_example))).
  { apply H1. simpl. lia. }
  split; [exact F | now rewrite (H2 F)].
Defined.

Lemma app_assoc_s (a b c : string) : (a ++ b) ++ c = a ++ b ++ c.
Proof. induction a; simpl; congruence. Qed.

Lemma get_pointer_decl_text (v : Var.t) :
  Var.get_pointer_decl v = (Ok (pointer_text v), v).
Proof. unfold Var.get_pointer_decl. now rewrite pointer_format. Qed.

Lemma set_alignment_fields (b : Z) (v : Var.t) :
  let v' := Var.set_alignment b v in
  Var.type v' = Var.type v /\ Var.name v' = Var.name v
  /\ Var.index v' = Var.index v /\ Var.decl_written v' = Var.decl_written v
  /\ well_formed v' = well_formed v /\ dim_text v' = dim_text v
  /\ (forall fmt w, data_text fmt w v' = data_text fmt w v).
Proof.
  unfold Var.set_alignment. destruct (b >? 0)%Z; repeat split; reflexivity.
Qed.

(** C9: after [set_alignment] with a positive byte count [b], the pointer
    declaration and the declaration of [get_def] carry [alignas(8 * b)];
    after [set_alignment] with zero they carry no directive, only the blank
    that separates the fields. *)
Theorem C9_alignment_directive (b : Z) (v : Var.t) :
  let v' := Var.set_alignment b v in
  let ident := Var.name v ++ "_" ++ py_str_int (Var.index v) in
  ((0 < b)%Z ->
     Var.alignment v' = "alignas(" ++ py_str_int (8 * b) ++ ")"
     /\ fst (Var.get_pointer_decl v')
        = Ok (Var.type v ++ " *" ++ ident ++ " alignas("
              ++ py_str_int (8 * b) ++ ");" ++ nl)
     /\ forall fmt w,
          well_formed v = true -> Var.decl_written v = false ->
          fst (Var.get_def fmt w v')
          = Ok (Some ("static " ++ Var.type v ++ " " ++ ident ++ " alignas("
                      ++ py_str_int (8 * b) ++ ") " ++ dim_text v ++ " = { "
                      ++ data_text fmt w v ++ " };" ++ nl)))
  /\ (b = 0%Z ->
        Var.alignment v' = ""
        /\ fst (Var.get_pointer_decl v')
           = Ok (Var.type v ++ " *" ++ ident ++ " ;" ++ nl)
        /\ forall fmt w,
             well_formed v = true -> Var.decl_written v = false ->
             fst (Var.get_def fmt w v')
             = Ok (Some ("static " ++ Var.type v ++ " " ++ ident ++ "  "
                         ++ dim_text v ++ " = { " ++ data_text fmt w v
                         ++ " };" ++ nl))).
Proof.
  intros v' ident.
  destruct (set_alignment_fields b v) as (Ht & Hn & Hi & Hd & Hw & Hdt & Hda).
  fold v' in Ht, Hn, Hi, Hd, Hw, Hdt, Hda.
  assert (Hdef : forall fmt w,
    well_formed v = true -> Var.decl_written v = false ->
    fst (Var.get_def fmt w v')
    = Ok (Some (decl_text v' (dim_text v) (data_text fmt w v)))).
  { intros fmt w Hwf Hf.
    rewrite (get_def_fresh fmt w v' (dim_text v')).
    - simpl. now rewrite Hdt, Hda.
    - congruence.
    - apply get_dim_str_ok. congruence. }
  split.
  - intros Hb.
    assert (Ha : Var.alignment v' = "alignas(" ++ py_str_int (8 * b) ++ ")").
    { subst v'. unfold Var.set_alignment.
      destruct (b >? 0)%Z eqn:E; [reflexivity | lia]. }
    split; [exact Ha | split].
    + rewrite get_pointer_decl_text. simpl. unfold pointer_text, ident.
      rewrite Ht, Hn, Hi, Ha. simpl.
      now rewrite !app_assoc_s.
    + intros fmt w Hwf Hf. rewrite (Hdef fmt w Hwf Hf).
      unfold decl_text, ident. rewrite Ht, Hn, Hi, Ha. simpl.
      now rewrite !app_assoc_s.
  - intros ->.
    assert (Ha : Var.alignment v' = "") by reflexivity.
    split; [exact Ha | split].
    + rewrite get_pointer_decl_text. simpl. unfold pointer_text, ident.
      rewrite Ht, Hn, Hi, Ha. simpl.
      now rewrite !app_assoc_s.
    + intros fmt w Hwf Hf. rewrite (Hdef fmt w Hwf Hf).
      unfold decl_text, ident. rewrite Ht, Hn, Hi, Ha. simpl.
      now rewrite !app_assoc_s.
Qed.

Lemma C9_alignment_directive_witness :
  Var.alignment (Var.set_alignment 16 w_example) = "alignas(128)"
  /\ fst (Var.get_pointer_decl (Var.set_alignment 0 w_example))
     = Ok ("float *w_0 ;" ++ nl).
Proof.
  destruct (C9_alignment_directive 16 w_example) as [Hpos _].
  destruct (C9_alignment_directive 0 w_example) as [_ Hzero].
  destruct (Hpos eq_refl) as (Ha & _).
  destruct (Hzero eq_refl) as (_ & Hp & _).
  split; [rewrite Ha | rewrite Hp]; reflexivity.
Defined.



(** ** Expression *)

Lemma placeholders_of_In (ts : list token) (k : string) :
  In k (placeholders_of ts) <-> In (TField k) ts.
Proof.
  induction ts as [|t ts IH]; simpl; [tauto|].
  destruct t; simpl; rewrite IH; split; intros H;
    try (right; exact H); try (destruct H as [H|H]; [discriminate | exact H]).
  - destruct H as [H|H]; [left; congruence | right; exact H].
  - destruct H as [H|H]; [left; congruence | right; exact H].
Qed.

Section Format.
Context {V : Type} (render : V -> outcome string).

(** A placeholder without a keyword argument makes [format] raise, whatever
    comes before it. *)
Lemma format_tokens_missing (kwargs : dict V) (name : string) :
  (forall k v, dict_get kwargs k = Some v -> defined (render v)) ->
  dict_get kwargs name = None ->
  forall ts an,
    in_model ts = true -> In (TField name) ts ->
    fails (format_tokens render [] kwargs an ts).
Proof.
  intros Hdef Hnone.
  induction ts as [|t ts IH]; intros an Hm Hin; [destruct Hin|].
  simpl in Hm. apply andb_true_iff in Hm as [Ht Hm].
  destruct t as [c|k| |i|e|]; simpl.
  - destruct Hin as [Hin|Hin]; [discriminate|].
    destruct (IH an Hm Hin) as [e He]. rewrite He. now exists e.
  - destruct (dict_get kwargs k) as [v|] eqn:Hk.
    + destruct Hin as [Hin|Hin].
      { injection Hin as ->. congruence. }
      destruct (Hdef k v Hk) as [[t Ht']|[e He]].
      * rewrite Ht'. simpl.
        destruct (IH an Hm Hin) as [e He]. rewrite He. now exists e.
      * rewrite He. now exists e.
    + now exists (KeyError k).
  - destruct an; [| |now exists ValueError];
      unfold py_index; rewrite nth_error_nil; now exists IndexError.
  - destruct an; [|now exists ValueError|];
      unfold py_index; rewrite nth_error_nil; now exists IndexError.
  - now exists e.
  - discriminate.
Qed.

(** Keyword arguments that no placeholder names do not matter. *)
Lemma format_tokens_ext (args : list V) (kw kw' : dict V) :
  forall ts an,
    (forall k, In (TField k) ts -> dict_get kw' k = dict_get kw k) ->
    format_tokens render args kw' an ts = format_tokens render args kw an ts.
Proof.
  induction ts as [|t ts IH]; intros an H; [reflexivity|].
  assert (Hts : forall an', format_tokens render args kw' an' ts
                            = format_tokens render args kw an' ts).
  { intros an'. apply IH. intros k Hk. apply H. now right. }
  destruct t as [c|k| |i|e|]; simpl; try reflexivity.
  - now rewrite Hts.
  - rewrite (H k (or_introl eq_refl)).
    destruct (dict_get kw k); [|reflexivity].
    destruct (render v); simpl; try reflexivity. now rewrite Hts.
  - destruct an; try reflexivity;
      (destruct (py_index args _); simpl; try reflexivity;
       destruct (render a); simpl; try reflexivity; now rewrite Hts).
  - destruct an; try reflexivity;
      (destruct (py_index args _); simpl; try reflexivity;
       destruct (render a); simpl; try reflexivity; now rewrite Hts).
Qed.

(** With every placeholder bound to a value that renders, [format] is the
    substitution. *)
Lemma format_tokens_plain (args : list V) (kw : dict V)
    (text : string -> string) :
  forall ts an,
    plain ts = true ->
    (forall k, In (TField k) ts ->
       exists v, dict_get kw k = Some v /\ render v = Ok (text k)) ->
    format_tokens render args kw an ts = Ok (substitute text ts).
Proof.
  induction ts as [|t ts IH]; intros an Hp H; [reflexivity|].
  simpl in Hp. apply andb_true_iff in Hp as [Ht Hp].
  assert (Hts : format_tokens render args kw an ts
                = Ok (substitute text ts)).
  { apply IH; [exact Hp|]. intros k Hk. apply H. now right. }
  destruct t as [c|k| |i|e|]; try discriminate; simpl.
  - now rewrite Hts.
  - destruct (H k (or_introl eq_refl)) as (v & Hv & Hr).
    rewrite Hv, Hr. simpl. now rewrite Hts.
Qed.
End Format.

Lemma str_node_expression (fuel : nat) (h : store) (a : addr)
    (self : TreeNode) (snippet : string) :
  nth_error h a = Some self -> kind self = KExpression snippet ->
  str_node (S fuel) h a
  = format (fun e => str_node fuel h (Edge.target e)) snippet [] (edges self).
Proof. intros Ha Hk. simpl. now rewrite Ha, Hk. Qed.

(** C2, as the code has it: rendering an expression fails when a placeholder
    of the template has no bound edge; an edge whose name is not a placeholder
    is ignored, the text being that of any edge table that agrees on the
    placeholders; and when every placeholder has a bound edge whose child
    renders, the result is the template with each placeholder replaced by
    that child's text. *)
Theorem C2_expression_render (fuel : nat) (h : store) (a : addr)
    (self : TreeNode) (snippet : string) :
  nth_error h a = Some self ->
  kind self = KExpression snippet ->
  (forall name,
     In name (placeholders snippet) ->
     dict_get (edges self) name = None ->
     in_model (tokens snippet) = true ->
     (forall k e, dict_get (edges self) k = Some e ->
                  defined (str_node fuel h (Edge.target e))) ->
     fails (str_node (S fuel) h a))
  /\ (forall edges' : dict Edge.t,
        (forall k, In k (placeholders snippet) ->
                   dict_get edges' k = dict_get (edges self) k) ->
        format (fun e => str_node fuel h (Edge.target e)) snippet [] edges'
        = str_node (S fuel) h a)
  /\ (forall text : string -> string,
        plain (tokens snippet) = true ->
        (forall k, In k (placeholders snippet) ->
           exists e, dict_get (edges self) k = Some e
                     /\ str_node fuel h (Edge.target e) = Ok (text k)) ->
        str_node (S fuel) h a = Ok (substitute text (tokens snippet))).
Proof.
  intros Ha Hk. rewrite (str_node_expression fuel h a self snippet Ha Hk).
  unfold format, placeholders. split; [|split].
  - intros name Hin Hnone Hm Hdef.
    apply format_tokens_missing with (name := name); try assumption.
    now apply placeholders_of_In.
  - intros edges' H. apply format_tokens_ext.
    intros k Hin. apply H. now apply placeholders_of_In.
  - intros text Hp H. apply format_tokens_plain; [exact Hp|].
    intros k Hin. apply H. now apply placeholders_of_In.
Qed.

Lemma C2_expression_render_witness :
  str_node 2 expr_store 2 = Ok "1 + 2"
  /\ fails (str_node 2 expr_store 4).
Proof.
  split.
  - destruct (C2_expression_render 1 expr_store 2 _ "{a} + {b}"
                eq_refl eq_refl) as (_ & _ & H).
    rewrite (H (fun k => if String.eqb k "a" then "1" else "2") eq_refl).
    + reflexivity.
    + intros k [<-|[<-|[]]]; eexists; split; reflexivity.
  - destruct (C2_expression_render 1 expr_store 4 _ "{a}{c}"
                eq_refl eq_refl) as (H & _ & _).
    apply (H "c").
    + right. now left.
    + reflexivity.
    + reflexivity.
    + intros k e Hke.
      assert (Hc : k = "a" \/ k = "b").
      { revert Hke.
        change (edges (returned (Expression.__init__ "{a}{c}"
                                   [("a", 0%nat); ("b", 1%nat)])))
          with [("a", Edge.mk "a" "m_expr" 0); ("b", Edge.mk "b" "m_expr" 1)].
        cbn -[String.eqb].
        destruct (String.eqb_spec "a" k); [now left|].
        destruct (String.eqb_spec "b" k); [now right | discriminate]. }
      left. destruct Hc as [-> | ->]; vm_compute in Hke;
        injection Hke as E; rewrite <- E; eexists; reflexivity.
Defined.

(** C2 as stated fails: [{a}] bound to [a] and [b] renders, the edge [b]
    being ignored. *)
Lemma C2_counterexample : ~ unused_binding_fails 2 expr_store 3.
Proof.
  intros H.
  destruct (H _ "{a}" eq_refl eq_refl) as [e He].
  - exists "b". split.
    + right. now left.
    + intros [E|[]]. discriminate E.
  - discriminate He.
Qed.

(** ** IndexedVariable *)

(** C3 at the failing input: one index node attached at both axes of an
    array padded by [[1, 0], [2, 0]].  The second subscript gets the pad of
    the first axis, where [n.index(i)] finds the node first; two different
    index nodes get the pads of their own axes. *)
Theorem C3_shared_index_pad :
  str_node 2 index_store 3 = Ok "A_0[i_1 + 1][i_1 + 1]"
  /\ str_node 2 index_store 3 <> Ok "A_0[i_1 + 1][i_1 + 2]"
  /\ str_node 2 index_store 4 = Ok "A_0[i_1 + 1][j_2 + 2]"
  /\ IndexedVariable.get_pads index_store 0 = Ok [[1; 0]; [2; 0]]%Z.
Proof.
  split; [|split; [|split]]; try reflexivity.
  intros H. vm_compute in H. discriminate H.
Qed.

(** ** Stores without cycles *)

Lemma edge_eqb_eq (e1 e2 : Edge.t) : Edge.eqb e1 e2 = true <-> e1 = e2.
Proof.
  unfold Edge.eqb. destruct e1 as [n1 t1 a1], e2 as [n2 t2 a2]. simpl.
  rewrite !andb_true_iff, !String.eqb_eq, Nat.eqb_eq.
  split; [intros [[-> ->] ->]; reflexivity | intros E; injection E; auto].
Qed.

Lemma nodupb_NoDup (es : list Edge.t) : nodupb es = true -> NoDup es.
Proof.
  induction es as [|e es IH]; simpl; intros H; constructor.
  - apply andb_true_iff in H as [H _]. apply negb_true_iff in H.
    intros Hin. apply not_true_iff_false in H. apply H.
    apply existsb_exists. exists e. split; [exact Hin | now apply edge_eqb_eq].
  - apply andb_true_iff in H as [_ H]. now apply IH.
Qed.

Lemma In_combine_seq {A} (l : list A) : forall (s a : nat) (x : A),
  nth_error l a = Some x -> In ((s + a)%nat, x) (combine (seq s (length l)) l).
Proof.
  induction l as [|y l IH]; intros s a x H; [destruct a; discriminate|].
  destruct a as [|a]; simpl in *.
  - left. injection H as ->. f_equal. lia.
  - right. replace (s + S a)%nat with (S s + a)%nat by lia. now apply IH.
Qed.

Section Acyclic.
Variables (h : store) (rank : addr -> nat).
Hypothesis Hok : store_ok rank h = true.

Lemma store_ok_node (a : addr) (self : TreeNode) :
  nth_error h a = Some self -> node_ok rank h a self = true.
Proof.
  intros Ha. unfold store_ok in Hok. rewrite forallb_forall in Hok.
  apply (Hok (a, self)). now apply (In_combine_seq h 0 a self).
Qed.

Lemma store_ok_edge (a : addr) (self : TreeNode) (e : Edge.t) :
  nth_error h a = Some self -> In e (out_edges self) ->
  (rank (Edge.target e) < rank a)%nat /\ (Edge.target e < length h)%nat.
Proof.
  intros Ha He. pose proof (store_ok_node a self Ha) as H.
  unfold node_ok in H. apply andb_true_iff in H as [H _].
  rewrite forallb_forall in H. specialize (H e He).
  apply andb_true_iff in H as [H1 H2].
  apply Nat.ltb_lt in H1, H2. now split.
Qed.

Lemma store_ok_NoDup (a : addr) (self : TreeNode) :
  nth_error h a = Some self -> NoDup (out_edges self).
Proof.
  intros Ha. pose proof (store_ok_node a self Ha) as H.
  unfold node_ok in H. apply andb_true_iff in H as [_ H].
  now apply nodupb_NoDup.
Qed.

Lemma lookup_some (a : addr) :
  (a < length h)%nat -> exists self, nth_error h a = Some self.
Proof.
  intros H. destruct (nth_error h a) eqn:E; [now eexists|].
  apply nth_error_None in E. lia.
Qed.

(** *** The walker and its record *)

Lemma map_app_snoc (stk : list Edge.t) (e : Edge.t)
    (Q : list (list Edge.t)) :
  map (app (stk ++ [e])%list) Q = map (app stk) (map (cons e) Q).
Proof.
  rewrite map_map. apply map_ext. intros q.
  now rewrite <- app_assoc.
Qed.

Lemma traverse_S {S} (fuel : nat) (action : TraverseAction S) (a : addr)
    (self : TreeNode) (s : S) :
  nth_error h a = Some self ->
  traverse (Datatypes.S fuel) h action a s
  = traverse_edges (traverse fuel h action) action (out_edges self) s.
Proof. intros Ha. simpl. now rewrite Ha. Qed.

Section Instrument.
Context {S : Type} (action : TraverseAction S).
Hypothesis Hfull : full action.

(** What the walk over the edges [es] adds to the record, given what the
    walks below add. *)
Lemma instrument_edges (D : addr -> S -> outcome S)
    (D' : addr -> S * visit_log -> outcome (S * visit_log))
    (Ppre Ppost : addr -> list (list Edge.t)) (es : list Edge.t) :
  (forall e, In e es -> forall s stk pre post,
     exists s',
       D (Edge.target e) s = Ok s'
       /\ D' (Edge.target e)
             (s, {| v_stack := stk; v_pre := pre; v_post := post |})
          = Ok (s',
                {| v_stack := stk;
                   v_pre := (pre ++ map (app stk)
                                      (Ppre (Edge.target e)))%list;
                   v_post := (post ++ map (app stk)
                                        (Ppost (Edge.target e)))%list |})) ->
  forall s stk pre post,
  exists s',
    traverse_edges D action es s = Ok s'
    /\ traverse_edges D' (instrument action) es
         (s, {| v_stack := stk; v_pre := pre; v_post := post |})
       = Ok (s',
             {| v_stack := stk;
                v_pre :=
                  (pre ++ map (app stk)
                     (flat_map (fun e => [e] :: map (cons e)
                                           (Ppre (Edge.target e))) es))%list;
                v_post :=
                  (post ++ map (app stk)
                     (flat_map (fun e => (map (cons e)
                                            (Ppost (Edge.target e))
                                          ++ [[e]])%list) es))%list |}).
Proof.
  induction es as [|e es IH]; intros HD s stk pre post.
  - exists s. simpl. rewrite !app_nil_r. now split.
  - destruct Hfull as [Hpre Hpost].
    destruct (Hpre e s) as [s1 E1].
    destruct (HD e (or_introl eq_refl) s1 (stk ++ [e])%list
                (pre ++ [(stk ++ [e])%list])%list post)
      as (s2 & E2 & E2').
    destruct (Hpost e s2) as [s3 E3].
    destruct (IH (fun e' H => HD e' (or_intror H)) s3 stk
                ((pre ++ [(stk ++ [e])%list])
                 ++ map (app (stk ++ [e])%list) (Ppre (Edge.target e)))%list
                ((post ++ map (app (stk ++ [e])%list)
                              (Ppost (Edge.target e)))
                 ++ [(stk ++ [e])%list])%list)
      as (s4 & E4 & E4').
    exists s4. split.
    + simpl. rewrite E1. simpl. rewrite E2. simpl. rewrite E3. simpl.
      exact E4.
    + simpl. rewrite E1. simpl. rewrite E2'. simpl. rewrite E3. simpl.
      rewrite removelast_last. rewrite E4'.
      rewrite !map_app_snoc. simpl.
      rewrite !map_app. simpl.
      rewrite <- !app_assoc. simpl. reflexivity.
Qed.

Lemma instrument_traverse : forall (fuel : nat) (a : addr),
  (rank a < fuel)%nat -> (a < length h)%nat ->
  forall s stk pre post,
  exists s',
    traverse fuel h action a s = Ok s'
    /\ traverse fuel h (instrument action) a
         (s, {| v_stack := stk; v_pre := pre; v_post := post |})
       = Ok (s',
             {| v_stack := stk;
                v_pre := (pre ++ map (app stk) (paths_pre fuel h a))%list;
                v_post :=
                  (post ++ map (app stk) (paths_post fuel h a))%list |}).
Proof.
  induction fuel as [|fuel IH]; intros a Hr Ha s stk pre post; [lia|].
  destruct (lookup_some a Ha) as [self Hs].
  rewrite !(traverse_S fuel _ a self _ Hs).
  simpl paths_pre. simpl paths_post. rewrite Hs.
  apply instrument_edges. intros e He.
  destruct (store_ok_edge a self e Hs He) as [H1 H2].
  apply IH; [lia | exact H2].
Qed.
End Instrument.
End Acyclic.

(** ** The chains a walk follows *)

Lemma flat_map_ext_in {A B} (f g : A -> list B) (l : list A) :
  (forall x, In x l -> f x = g x) -> flat_map f l = flat_map g l.
Proof.
  induction l as [|x l IH]; intros H; [reflexivity|].
  simpl. rewrite (H x (or_introl eq_refl)), IH; [reflexivity|].
  intros y Hy. apply H. now right.
Qed.

Lemma Permutation_flat_map_pointwise {A B} (f g : A -> list B) (l : list A) :
  (forall x, In x l -> Permutation (f x) (g x)) ->
  Permutation (flat_map f l) (flat_map g l).
Proof.
  induction l as [|x l IH]; intros H; [constructor|].
  simpl. apply Permutation_app.
  - apply H. now left.
  - apply IH. intros y Hy. apply H. now right.
Qed.

Lemma NoDup_map_cons {A} (x : A) (l : list (list A)) :
  NoDup l -> NoDup (map (cons x) l).
Proof.
  induction 1 as [|q l Hq Hl IH]; simpl; constructor; [|exact IH].
  intros Hin. apply in_map_iff in Hin as (q' & E & Hq').
  injection E as ->. contradiction.
Qed.

(** Blocks that start with different edges do not overlap. *)
Lemma NoDup_blocks (Q : Edge.t -> list (list Edge.t)) (es : list Edge.t) :
  NoDup es ->
  (forall e, In e es -> NoDup (Q e)) ->
  (forall e, In e es -> ~ In [] (Q e)) ->
  NoDup (flat_map (fun e => [e] :: map (cons e) (Q e)) es).
Proof.
  induction es as [|e es IH]; intros Hnd HQ Hne; [constructor|].
  inversion Hnd as [|? ? Hnotin Hnd']; subst.
  simpl. constructor.
  - intros Hin. apply in_app_or in Hin as [Hin|Hin].
    + apply in_map_iff in Hin as (q & Hq & Hin).
      injection Hq as ->. exact (Hne e (or_introl eq_refl) Hin).
    + apply in_flat_map in Hin as (e' & He' & Hin).
      destruct Hin as [Hin|Hin].
      * injection Hin as ->. contradiction.
      * apply in_map_iff in Hin as (q & Hq & _).
        injection Hq as -> _. contradiction.
  - apply NoDup_app.
    + apply NoDup_map_cons. apply HQ. now left.
    + apply IH; [exact Hnd' | |]; intros e' He'; [apply HQ | apply Hne];
        now right.
    + intros p Hp Hin.
      apply in_map_iff in Hp as (q & <- & _).
      apply in_flat_map in Hin as (e' & He' & Hin).
      destruct Hin as [Hin|Hin].
      * injection Hin as -> _. contradiction.
      * apply in_map_iff in Hin as (q' & Hq' & _).
        injection Hq' as -> _. contradiction.
Qed.

Lemma before_map {A B} (f : A -> B) (x y : A) (l : list A) :
  before x y l -> before (f x) (f y) (map f l).
Proof.
  intros (l1 & l2 & l3 & ->).
  exists (map f l1), (map f l2), (map f l3).
  rewrite map_app. simpl. rewrite map_app. reflexivity.
Qed.

Lemma before_embed {A} (x y : A) (a l b : list A) :
  before x y l -> before x y (a ++ l ++ b)%list.
Proof.
  intros (l1 & l2 & l3 & ->).
  exists (a ++ l1)%list, l2, (l3 ++ b)%list.
  rewrite <- !app_assoc. simpl. rewrite <- !app_assoc. reflexivity.
Qed.

Lemma end_node_snoc (a : addr) (p : list Edge.t) (e : Edge.t) :
  end_node a (p ++ [e]) = Edge.target e.
Proof. unfold end_node. now rewrite fold_left_app. Qed.

Section Paths.
Variables (h : store) (rank : addr -> nat).
Hypothesis Hok : store_ok rank h = true.

Lemma paths_pre_nonempty (fuel : nat) (a : addr) :
  ~ In [] (paths_pre fuel h a).
Proof.
  destruct fuel as [|fuel]; simpl; [tauto|].
  destruct (nth_error h a); [|tauto].
  intros H. apply in_flat_map in H as (e & _ & [H|H]); [discriminate|].
  apply in_map_iff in H as (q & Hq & _). discriminate.
Qed.

(** The walk follows exactly the chains of the graph. *)
Lemma paths_pre_In : forall (fuel : nat) (a : addr) (p : list Edge.t),
  (rank a < fuel)%nat ->
  (In p (paths_pre fuel h a) <-> p <> [] /\ is_path h a p).
Proof.
  induction fuel as [|fuel IH]; intros a p Hr; [lia|].
  simpl. split.
  - destruct (nth_error h a) as [self|] eqn:Hs; [|intros []].
    intros H. apply in_flat_map in H as (e & He & H).
    destruct (store_ok_edge h rank Hok a self e Hs He) as [H1 _].
    destruct H as [<-|H].
    + split; [discriminate|]. econstructor; eauto. constructor.
    + apply in_map_iff in H as (q & <- & Hq).
      split; [discriminate|].
      apply IH in Hq; [|lia]. econstructor; eauto. tauto.
  - intros [Hne Hp]. inversion Hp as [|? self e q Hs He Hq]; subst;
      [congruence|].
    rewrite Hs. apply in_flat_map. exists e. split; [exact He|].
    destruct (store_ok_edge h rank Hok a self e Hs He) as [H1 _].
    destruct q as [|e' q]; [now left|]. right.
    apply in_map. apply IH; [lia|]. split; [discriminate | exact Hq].
Qed.

Lemma paths_pre_NoDup : forall (fuel : nat) (a : addr),
  NoDup (paths_pre fuel h a).
Proof.
  induction fuel as [|fuel IH]; intros a; simpl; [constructor|].
  destruct (nth_error h a) as [self|] eqn:Hs; [|constructor].
  apply (NoDup_blocks (fun e => paths_pre fuel h (Edge.target e))).
  - exact (store_ok_NoDup h rank Hok a self Hs).
  - intros e _. apply IH.
  - intros e _. apply paths_pre_nonempty.
Qed.

Lemma paths_post_pre : forall (fuel : nat) (a : addr),
  Permutation (paths_post fuel h a) (paths_pre fuel h a).
Proof.
  induction fuel as [|fuel IH]; intros a; simpl; [constructor|].
  destruct (nth_error h a) as [self|]; [|constructor].
  apply Permutation_flat_map_pointwise. intros e _.
  eapply Permutation_trans.
  - apply Permutation_sym, Permutation_cons_append.
  - apply perm_skip, Permutation_map, IH.
Qed.
End Paths.

Section Order.
Variables (h : store) (rank : addr -> nat).
Hypothesis Hok : store_ok rank h = true.

(** Any bound above the rank gives the same chains. *)
Lemma paths_pre_fuel : forall (f1 f2 : nat) (a : addr),
  (rank a < f1)%nat -> (rank a < f2)%nat ->
  paths_pre f1 h a = paths_pre f2 h a.
Proof.
  induction f1 as [|f1 IH]; intros f2 a H1 H2; [lia|].
  destruct f2 as [|f2]; [lia|]. simpl.
  destruct (nth_error h a) as [self|] eqn:Hs; [|reflexivity].
  apply flat_map_ext_in. intros e He.
  destruct (store_ok_edge h rank Hok a self e Hs He) as [Hr _].
  rewrite (IH f2 (Edge.target e)); [reflexivity | lia | lia].
Qed.

(** Below every visit, the edges of the node reached are visited in
    attachment order. *)
Lemma paths_pre_order : forall (p : list Edge.t) (a : addr) (fuel : nat),
  is_path h a p -> (rank a < fuel)%nat ->
  forall self es1 e1 es2 e2 es3,
    nth_error h (end_node a p) = Some self ->
    out_edges self = (es1 ++ e1 :: es2 ++ e2 :: es3)%list ->
    before (p ++ [e1])%list (p ++ [e2])%list (paths_pre fuel h a).
Proof.
  induction p as [|e q IH]; intros a fuel Hp Hr self es1 e1 es2 e2 es3
    Hs Hes; (destruct fuel as [|fuel]; [lia|]).
  - simpl in Hs |- *. rewrite Hs, Hes.
    set (B := fun e => [e] :: map (cons e)
                                  (paths_pre fuel h (Edge.target e))).
    exists (flat_map B es1),
           (map (cons e1) (paths_pre fuel h (Edge.target e1))
            ++ flat_map B es2)%list,
           (map (cons e2) (paths_pre fuel h (Edge.target e2))
            ++ flat_map B es3)%list.
    rewrite flat_map_app. simpl. rewrite flat_map_app. simpl.
    unfold B. rewrite <- !app_assoc. reflexivity.
  - inversion Hp as [|? node ? ? Hn He Hq]; subst.
    destruct (store_ok_edge h rank Hok a node e Hn He) as [Hre _].
    assert (Hb : before (q ++ [e1])%list (q ++ [e2])%list
                        (paths_pre fuel h (Edge.target e))).
    { apply (IH (Edge.target e) fuel Hq) with (self := self)
        (es1 := es1) (es2 := es2) (es3 := es3); [lia | exact Hs | exact Hes]. }
    apply (before_map (cons e)) in Hb.
    destruct (in_split e (out_edges node) He) as (l & r & Hsplit).
    simpl. rewrite Hn, Hsplit, flat_map_app. simpl.
    apply (before_embed _ _ _ ([e] :: map (cons e)
                                 (paths_pre fuel h (Edge.target e)))).
    destruct Hb as (l1 & l2 & l3 & E).
    exists ([e] :: l1), l2, l3. simpl. now rewrite E.
Qed.
End Order.

(** ** SearchNode *)

Lemma filter_map_swap {A B} (f : B -> bool) (g : A -> B) (l : list A) :
  filter f (map g l) = map g (filter (fun x => f (g x)) l).
Proof.
  induction l as [|x l IH]; simpl; [reflexivity|].
  destruct (f (g x)); simpl; now rewrite IH.
Qed.

Lemma post_action_pop (e : Edge.t) (res : list (list addr)) (x : addr)
    (stk : list addr) (top : addr) :
  SearchNode._post_action e (SearchNode.mk res x (stk ++ [top])%list)
  = Ok (SearchNode.mk
          (if Nat.eqb (Edge.target e) x
           then (res ++ [(stk ++ [top])%list])%list else res)
          x stk).
Proof.
  unfold SearchNode._post_action. simpl.
  destruct (Nat.eqb (Edge.target e) x); simpl;
    (destruct (stk ++ [top])%list eqn:E;
     [now destruct stk | rewrite <- E, removelast_last; reflexivity]).
Qed.

Section Search.
Variables (h : store) (rank : addr -> nat).
Hypothesis Hok : store_ok rank h = true.
Variable x : addr.

(** The node chain a result holds for the visit [p] made below the nodes
    [stk]. *)
Let entry (stk : list addr) (p : list Edge.t) : list addr :=
  (stk ++ map Edge.target p)%list.

Let hit (a : addr) (p : list Edge.t) : bool := Nat.eqb (end_node a p) x.

Lemma search_edges (D : addr -> SearchNode.t -> outcome SearchNode.t)
    (P : addr -> list (list Edge.t)) (a : addr) (es : list Edge.t) :
  (forall e, In e es -> forall res stk,
     D (Edge.target e) (SearchNode.mk res x stk)
     = Ok (SearchNode.mk
             (res ++ map (entry stk)
                         (filter (hit (Edge.target e))
                                 (P (Edge.target e))))%list
             x stk)) ->
  forall res stk,
    traverse_edges D SearchNode.action es (SearchNode.mk res x stk)
    = Ok (SearchNode.mk
            (res ++ map (entry stk)
               (filter (hit a)
                  (flat_map (fun e => (map (cons e) (P (Edge.target e))
                                       ++ [[e]])%list) es)))%list
            x stk).
Proof.
  induction es as [|e es IH]; intros HD res stk.
  - simpl. now rewrite app_nil_r.
  - simpl. rewrite (HD e (or_introl eq_refl)). simpl.
    rewrite post_action_pop. cbn [bind].
    rewrite (IH (fun e' H => HD e' (or_intror H))).
    do 2 f_equal.
    rewrite !filter_app, !map_app, filter_map_swap, map_map.
    assert (E1 : map (entry (stk ++ [Edge.target e])%list)
                     (filter (hit (Edge.target e)) (P (Edge.target e)))
                 = map (fun q => entry stk (e :: q))
                     (filter (fun q => hit a (e :: q)) (P (Edge.target e)))).
    { apply map_ext. intros q. unfold entry. simpl.
      now rewrite <- app_assoc. }
    rewrite <- E1.
    assert (E2 : map (entry stk) (filter (hit a) [[e]])
                 = if Nat.eqb (Edge.target e) x
                   then [(stk ++ [Edge.target e])%list] else []).
    { simpl. unfold hit, end_node. simpl.
      now destruct (Nat.eqb (Edge.target e) x). }
    rewrite E2.
    destruct (Nat.eqb (Edge.target e) x);
      rewrite <- ?app_assoc; reflexivity.
Qed.

Lemma search_traverse : forall (fuel : nat) (a : addr),
  (rank a < fuel)%nat -> (a < length h)%nat ->
  forall res stk,
    traverse fuel h SearchNode.action a (SearchNode.mk res x stk)
    = Ok (SearchNode.mk
            (res ++ map (entry stk)
                        (filter (hit a) (paths_post fuel h a)))%list
            x stk).
Proof.
  induction fuel as [|fuel IH]; intros a Hr Ha res stk; [lia|].
  destruct (lookup_some h a Ha) as [self Hs].
  rewrite (traverse_S h fuel _ a self _ Hs).
  simpl paths_post. rewrite Hs.
  apply search_edges. intros e He.
  destruct (store_ok_edge h rank Hok a self e Hs He) as [H1 H2].
  apply IH; [lia | exact H2].
Qed.
End Search.

(** ** Traversal and identity search *)

Lemma map_app_nil (l : list (list Edge.t)) : map (app []) l = l.
Proof. rewrite <- (map_id l) at 2. now apply map_ext. Qed.

Lemma visit_orders (h : store) (rank : addr -> nat) {S : Type}
    (action : TraverseAction S) (root : addr) (s : S) (fuel : nat) :
  store_ok rank h = true -> full action ->
  (rank root < fuel)%nat -> (root < length h)%nat ->
  visit_order fuel h action root s = Ok (paths_pre fuel h root)
  /\ visit_post_order fuel h action root s = Ok (paths_post fuel h root)
  /\ exists s', traverse fuel h action root s = Ok s'.
Proof.
  intros Hok Hfull Hr Ha.
  destruct (instrument_traverse h rank Hok action Hfull fuel root Hr Ha
              s [] [] []) as (s' & E & E').
  unfold visit_order, visit_post_order, no_visits. rewrite E'. simpl.
  rewrite !map_app_nil. repeat split. now exists s'.
Qed.

Lemma end_node_last (a : addr) (p : list Edge.t) :
  end_node a p = last (map Edge.target p) a.
Proof.
  induction p as [|e p _] using rev_ind; [reflexivity|].
  rewrite end_node_snoc, map_app.
  change (map Edge.target [e]) with [Edge.target e].
  now rewrite last_last.
Qed.

(** The traversal of the specification on a store without cycles: a
    traversal whose hooks return and whose pre-order hook always reports
    descend returns,
    and its visits are exactly the non-empty chains of edges that leave the
    root, each chain once: an edge is visited once for every chain that leads
    to it.  Under every visit, and at the root, the outgoing edges of the node
    reached are visited in attachment order.  Two such traversals of the same
    store from the same root visit in the same order, whatever their actions,
    states and bounds. *)
Lemma traversal_visits (h : store) (rank : addr -> nat) (root : addr)
    {S1 S2 : Type} (action1 : TraverseAction S1) (action2 : TraverseAction S2)
    (s1 : S1) (s2 : S2) (fuel1 fuel2 : nat) :
  store_ok rank h = true ->
  (root < length h)%nat ->
  full action1 -> full action2 ->
  (rank root < fuel1)%nat -> (rank root < fuel2)%nat ->
  exists log,
    visit_order fuel1 h action1 root s1 = Ok log
    /\ visit_order fuel2 h action2 root s2 = Ok log
    /\ (exists s', traverse fuel1 h action1 root s1 = Ok s')
    /\ (forall p, In p log <-> p <> [] /\ is_path h root p)
    /\ NoDup log
    /\ (forall p self es1 e1 es2 e2 es3,
          is_path h root p ->
          nth_error h (end_node root p) = Some self ->
          out_edges self = (es1 ++ e1 :: es2 ++ e2 :: es3)%list ->
          before (p ++ [e1])%list (p ++ [e2])%list log).
Proof.
  intros Hok Ha Hf1 Hf2 Hr1 Hr2.
  exists (paths_pre fuel1 h root).
  destruct (visit_orders h rank action1 root s1 fuel1 Hok Hf1 Hr1 Ha)
    as (E1 & _ & Hret).
  destruct (visit_orders h rank action2 root s2 fuel2 Hok Hf2 Hr2 Ha)
    as (E2 & _ & _).
  split; [exact E1|]. split.
  { rewrite E2. f_equal. now apply (paths_pre_fuel h rank Hok). }
  split; [exact Hret|]. split.
  { intros p. now apply (paths_pre_In h rank Hok). }
  split.
  { now apply (paths_pre_NoDup h rank Hok). }
  intros p self es1 e1 es2 e2 es3 Hp Hs Hes.
  now apply (paths_pre_order h rank Hok p root fuel1 Hp Hr1 self es1 e1 es2 e2 es3).
Qed.

Lemma filter_none {A} (f : A -> bool) (l : list A) :
  (forall x, In x l -> f x = false) -> filter f l = [].
Proof.
  induction l as [|y l IH]; intros H; [reflexivity|].
  simpl. rewrite (H y (or_introl eq_refl)).
  apply IH. intros z Hz. apply H. now right.
Qed.

(** Over the traversal of the specification, on a store without cycles, an
    identity search returns, and its result holds one path for every chain
    of edges from the root that ends at the searched node, in the order the
    visits complete. *)
Lemma search_traverse_paths (h : store) (rank : addr -> nat) (root x : addr)
    (fuel : nat) :
  store_ok rank h = true ->
  (root < length h)%nat ->
  (rank root < fuel)%nat ->
  exists visits,
    visit_post_order fuel h idle root tt = Ok visits
    /\ (forall p, In p visits <-> p <> [] /\ is_path h root p)
    /\ NoDup visits
    /\ SearchNode.search fuel h root x
       = Ok (map (map Edge.target)
                 (filter (fun p => Nat.eqb (end_node root p) x) visits))
    /\ (forall r,
          In r (map (map Edge.target)
                    (filter (fun p => Nat.eqb (end_node root p) x) visits)) ->
          exists p, p <> [] /\ is_path h root p
                    /\ r = map Edge.target p /\ last r root = x)
    /\ ((forall p, p <> [] -> is_path h root p -> end_node root p <> x) ->
        SearchNode.search fuel h root x = Ok []).
Proof.
  intros Hok Ha Hr.
  assert (Hidle : full idle) by (split; intros e s; now eexists).
  destruct (visit_orders h rank idle root tt fuel Hok Hidle Hr Ha)
    as (_ & E & _).
  assert (Hin : forall p, In p (paths_post fuel h root)
                          <-> p <> [] /\ is_path h root p).
  { intros p. rewrite <- (paths_pre_In h rank Hok fuel root p Hr).
    split; apply Permutation_in;
      [|apply Permutation_sym]; apply paths_post_pre. }
  assert (Hs : SearchNode.search fuel h root x
               = Ok (map (map Edge.target)
                       (filter (fun p => Nat.eqb (end_node root p) x)
                               (paths_post fuel h root)))).
  { unfold SearchNode.search, SearchNode.__init__.
    rewrite (search_traverse h rank Hok x fuel root Hr Ha [] []). simpl.
    reflexivity. }
  exists (paths_post fuel h root).
  split; [exact E|]. split; [exact Hin|]. split.
  { apply (Permutation_NoDup (l := paths_pre fuel h root)).
    - apply Permutation_sym, paths_post_pre.
    - now apply (paths_pre_NoDup h rank Hok). }
  split; [exact Hs|]. split.
  - intros r Hrin. apply in_map_iff in Hrin as (p & <- & Hp).
    apply filter_In in Hp as [Hp Hx]. apply Nat.eqb_eq in Hx.
    apply Hin in Hp as [Hne Hp].
    exists p. repeat split; try assumption.
    now rewrite <- end_node_last.
  - intros Hnone. rewrite Hs.
    assert (Hall : forall p, In p (paths_post fuel h root) ->
                             Nat.eqb (end_node root p) x = false).
    { intros p Hp. apply Hin in Hp as [Hne Hp].
      apply Nat.eqb_neq. now apply Hnone. }
    now rewrite (filter_none _ _ Hall).
Qed.


(** ** Identity search over a walk *)

Section WalkSearch.
Local Open Scope list_scope.

Lemma visit_ind' (P : visit -> Prop) :
  (forall e below, Forall P below -> P (Visit e below)) ->
  forall v, P v.
Proof.
  intros H. fix IH 1. intros [e below]. apply H.
  induction below as [|v l IHl]; constructor; [apply IH | exact IHl].
Qed.

Lemma run_visit_eq {S} (action : TraverseAction S) (e : Edge.t)
    (below : list visit) (s : S) :
  run_visit action (Visit e below) s
  = (p <- pre_action action e s ;;
     s <- (if fst p then run_visits action below (snd p) else Ok (snd p)) ;;
     post_action action e s).
Proof.
  cbn [run_visit].
  destruct (pre_action action e s) as [[b s1]| | |]; cbn [bind fst snd];
    try reflexivity.
  destruct b; [|reflexivity].
  replace ((fix run (l : list visit) (s0 : S) {struct l} : outcome S :=
              match l with
              | [] => Ok s0
              | v :: r => s2 <- run_visit action v s0 ;; run r s2
              end) below s1)
    with (run_visits action below s1); [reflexivity|].
  revert s1. induction below as [|v l IH]; intros s1; [reflexivity|].
  cbn [run_visits]. destruct (run_visit action v s1); cbn [bind];
    try reflexivity. apply IH.
Qed.

Lemma run_visits_app {S} (action : TraverseAction S) (l1 l2 : list visit) :
  forall s,
    run_visits action (l1 ++ l2) s
    = (s <- run_visits action l1 s ;; run_visits action l2 s).
Proof.
  induction l1 as [|v l1 IH]; intros s; [reflexivity|].
  cbn [run_visits app]. destruct (run_visit action v s); cbn [bind];
    try reflexivity. apply IH.
Qed.

Lemma search_visit (x : addr) : forall (v : visit) (above : list Edge.t)
    (base : list addr) (res : list (list addr)),
  run_visit SearchNode.action v
    (SearchNode.mk res x (base ++ map Edge.target above))
  = Ok (SearchNode.mk
          (res ++ map (fun ae => base ++ visit_path ae)
                      (filter (hits x) (visits_of above v)))
          x (base ++ map Edge.target above)).
Proof.
  induction v as [e below IH] using visit_ind'. intros above base res.
  rewrite run_visit_eq.
  change (pre_action SearchNode.action) with SearchNode._pre_action.
  change (post_action SearchNode.action) with SearchNode._post_action.
  unfold SearchNode._pre_action. cbn [bind fst snd].
  cbn [SearchNode.result SearchNode.search_for SearchNode.cur_path_stack].
  assert (Hbelow : forall res,
    run_visits SearchNode.action below
      (SearchNode.mk res x (base ++ map Edge.target (above ++ [e])))
    = Ok (SearchNode.mk
            (res ++ map (fun ae => base ++ visit_path ae)
                        (filter (hits x)
                                (flat_map (visits_of (above ++ [e])) below)))
            x (base ++ map Edge.target (above ++ [e])))).
  { clear res. induction IH as [|v l Hv _ IHl]; intros res.
    - cbn. now rewrite app_nil_r.
    - cbn [run_visits flat_map]. rewrite Hv. cbn [bind]. rewrite IHl.
      rewrite filter_app.
      rewrite (map_app (fun ae : list Edge.t * Edge.t => base ++ visit_path ae)).
      rewrite (app_assoc res). reflexivity. }
  replace ((base ++ map Edge.target above) ++ [Edge.target e])
    with (base ++ map Edge.target (above ++ [e]))
    by (rewrite map_app, app_assoc; reflexivity).
  rewrite Hbelow. cbn [bind].
  replace (base ++ map Edge.target (above ++ [e]))
    with ((base ++ map Edge.target above) ++ [Edge.target e])
    by (rewrite map_app, app_assoc; reflexivity).
  rewrite post_action_pop. cbn [visits_of]. rewrite filter_app.
  rewrite (map_app (fun ae : list Edge.t * Edge.t => base ++ visit_path ae)).
  cbn [filter].
  change (hits x (above, e)) with (Nat.eqb (Edge.target e) x).
  destruct (Nat.eqb (Edge.target e) x).
  - cbn [map]. unfold visit_path. cbn [fst snd].
    rewrite ?map_app. cbn [map]. rewrite <- ?app_assoc. reflexivity.
  - cbn [map]. now rewrite app_nil_r.
Qed.

Lemma search_visits (x : addr) : forall (walk : list visit)
    (res : list (list addr)),
  run_visits SearchNode.action walk (SearchNode.mk res x [])
  = Ok (SearchNode.mk
          (res ++ map visit_path (filter (hits x) (walk_visits walk)))
          x []).
Proof.
  unfold walk_visits.
  induction walk as [|v walk IH]; intros res.
  - cbn. now rewrite app_nil_r.
  - cbn [run_visits flat_map].
    pose proof (search_visit x v [] [] res) as Hv. cbn [app map] in Hv.
    rewrite Hv. cbn [bind].
    rewrite IH, filter_app, map_app, (app_assoc res). reflexivity.
Qed.

Lemma visit_path_last (ae : list Edge.t * Edge.t) (d : addr) :
  last (visit_path ae) d = Edge.target (snd ae).
Proof.
  unfold visit_path. rewrite map_app. cbn [map]. apply last_last.
Qed.

(** C5: an identity search over a walk returns, and its result holds
    exactly one path for every visit of an edge whose target is the searched
    instance, in the order those visits complete.  The path of a visit is
    the targets of the edges of the visits around it, outermost first,
    followed by the target of the visited edge: the root is left out and the
    match is last.  Without such a visit the result is the empty list. *)
Theorem C5_identity_search (walk : list visit) (x : addr) :
  search_walk walk x
  = Ok (map visit_path (filter (hits x) (walk_visits walk)))
  /\ (forall r, search_walk walk x = Ok r ->
        length r = length (filter (hits x) (walk_visits walk))
        /\ forall p, In p r -> p <> [] /\ last p x = x)
  /\ ((forall ae, In ae (walk_visits walk) -> Edge.target (snd ae) <> x) ->
      search_walk walk x = Ok []).
Proof.
  assert (E : search_walk walk x
              = Ok (map visit_path (filter (hits x) (walk_visits walk)))).
  { unfold search_walk, SearchNode.__init__.
    rewrite (search_visits x walk []). reflexivity. }
  split; [exact E|]. split.
  - intros r Hr. rewrite E in Hr. injection Hr as <-.
    split; [apply length_map|].
    intros p Hp. apply in_map_iff in Hp as (ae & <- & Hae).
    apply filter_In in Hae as [_ Hx]. apply Nat.eqb_eq in Hx. split.
    + unfold visit_path. rewrite map_app. cbn [map].
      intros H. now apply app_eq_nil in H as [_ H].
    + now rewrite visit_path_last.
  - intros Hnone. rewrite E.
    rewrite (filter_none (hits x) (walk_visits walk)); [reflexivity|].
    intros ae Hae. apply Nat.eqb_neq. now apply Hnone.
Qed.

Lemma C5_identity_search_witness :
  search_walk twice_indexed_walk 2 = Ok []
  /\ search_walk twice_indexed_walk 1 = Ok [[1]; [1]]%nat.
Proof.
  destruct (C5_identity_search twice_indexed_walk 2) as (_ & _ & H).
  destruct (C5_identity_search twice_indexed_walk 1) as (E & _ & _).
  split.
  - apply H. intros ae Hae. cbn in Hae.
    destruct Hae as [<-|[<-|[<-|[]]]]; cbn; lia.
  - rewrite E. reflexivity.
Defined.

(** C5 as stated fails: the two index edges of [A[i][i]] are two different
    edges into the node [i], and the search for [i] returns the same path
    twice. *)
Lemma C5_counterexample : ~ two_edges_two_paths twice_indexed_walk 1.
Proof.
  intros H.
  destruct (H (Edge.mk "0" "index" 1) (Edge.mk "1" "index" 1))
    as (r & p1 & p2 & E & H1 & H2 & Hne).
  - cbn. right. now left.
  - cbn. right. right. now left.
  - discriminate.
  - reflexivity.
  - reflexivity.
  - vm_compute in E. injection E as <-.
    destruct H1 as [<-|[<-|[]]]; destruct H2 as [<-|[<-|[]]]; now apply Hne.
Qed.

(** The traversal of the specification makes the walk [forest]. *)
Lemma traverse_walk (h : store) (rank : addr -> nat) {S : Type}
    (action : TraverseAction S) :
  store_ok rank h = true ->
  forall (fuel : nat) (a : addr) (s : S),
    (rank a < fuel)%nat -> (a < length h)%nat ->
    traverse fuel h action a s = run_visits action (forest fuel h a) s.
Proof.
  intros Hok. induction fuel as [|fuel IH]; intros a s Hr Ha; [lia|].
  cbn [traverse forest].
  destruct (nth_error h a) as [self|] eqn:Hs.
  2:{ apply nth_error_None in Hs. lia. }
  assert (He : forall e, In e (out_edges self) ->
            (rank (Edge.target e) < fuel)%nat
            /\ (Edge.target e < length h)%nat).
  { intros e Hin.
    destruct (store_ok_edge h rank Hok a self e Hs Hin). split; lia. }
  revert s He. generalize (out_edges self) as es.
  induction es as [|e es IHes]; intros s He; [reflexivity|].
  cbn [traverse_edges map run_visits]. rewrite run_visit_eq.
  destruct (He e (or_introl eq_refl)) as [Hre Hae].
  destruct (pre_action action e s) as [[b s1]| | |]; cbn [bind fst snd];
    try reflexivity.
  assert (Hd : (if b then traverse fuel h action (Edge.target e) s1
                else Ok s1)
               = (if b then run_visits action
                              (forest fuel h (Edge.target e)) s1
                  else Ok s1)).
  { destruct b; [now apply IH | reflexivity]. }
  rewrite Hd.
  destruct (if b then run_visits action (forest fuel h (Edge.target e)) s1
            else Ok s1) as [s2| | |]; cbn [bind]; try reflexivity.
  destruct (post_action action e s2) as [s3| | |]; cbn [bind];
    try reflexivity.
  apply IHes. intros e' Hin. apply He. now right.
Qed.

Lemma index_store_walk : forest 2 index_store 3 = twice_indexed_walk.
Proof. reflexivity. Qed.

(** A search over the traversal of the specification is the search over the
    walk that traversal makes. *)
Lemma search_is_walk (h : store) (rank : addr -> nat) (fuel : nat)
    (root x : addr) :
  store_ok rank h = true ->
  (rank root < fuel)%nat -> (root < length h)%nat ->
  SearchNode.search fuel h root x = search_walk (forest fuel h root) x.
Proof.
  intros Hok Hr Ha. unfold SearchNode.search, search_walk.
  now rewrite (traverse_walk h rank SearchNode.action Hok fuel root _ Hr Ha).
Qed.

End WalkSearch.

(** * Further properties of the code *)

(** ** Variable *)

(** The declarations do not go through [__str__]: while a transient override
    other than [None] is set, [str] of the variable is the override's text,
    and [get_def] and [get_pointer_decl] still name the variable by its name
    and index, whatever the override; once the override is [None] again,
    [str] is the name and index. *)
Theorem declarations_ignore_override (fmt : np_scalar -> nat -> string)
    (w : bool) (v : Var.t) (x : pyval) :
  let v' := Var.with_temporal_value x v in
  (x <> PyNone -> Var.__str__ v' = py_str x)
  /\ Var.get_pointer_decl v' = (Ok (pointer_text v), v')
  /\ (well_formed v = true -> Var.decl_written v = false ->
      fst (Var.get_def fmt w v')
      = Ok (Some (decl_text v (dim_text v) (data_text fmt w v))))
  /\ Var.__str__ (Var.with_temporal_value PyNone v')
     = Ok (Var.name v ++ "_" ++ py_str_int (Var.index v)).
Proof.
  intros v'. split; [|split; [|split]].
  - intros Hx. unfold Var.__str__. subst v'.
    change (Var.temporal_value (Var.with_temporal_value x v)) with x.
    destruct x; try reflexivity. now elim Hx.
  - now rewrite get_pointer_decl_text.
  - intros Hwf Hf.
    rewrite (get_def_fresh fmt w v' (dim_text v')).
    + reflexivity.
    + exact Hf.
    + apply get_dim_str_ok. exact Hwf.
  - now rewrite str_format.
Qed.

Lemma declarations_ignore_override_witness :
  Var.__str__ (Var.with_temporal_value (PyInt 3) w_example) = Ok "3"
  /\ fst (Var.get_def fmt0 false
            (Var.with_temporal_value (PyInt 3) w_example))
     = Ok (Some ("static float w_0 alignas(128) [5][5] = { 0 };" ++ nl))
  /\ Var.__str__ (Var.with_temporal_value PyNone
                    (Var.with_temporal_value (PyInt 3) w_example))
     = Ok "w_0".
Proof.
  destruct (declarations_ignore_override fmt0 false w_example (PyInt 3))
    as (H1 & _ & H3 & H4).
  split; [|split].
  - rewrite H1; [reflexivity | discriminate].
  - rewrite (H3 eq_refl eq_refl). reflexivity.
  - rewrite H4. reflexivity.
Defined.

(** [set_alignment] overwrites: of two calls the later one decides, a
    non-positive byte count (negative ones included) clears the directive,
    and nothing but the alignment text changes. *)
Theorem set_alignment_last_wins (b1 b2 : Z) (v : Var.t) :
  Var.set_alignment b2 (Var.set_alignment b1 v) = Var.set_alignment b2 v
  /\ ((b1 <= 0)%Z -> Var.set_alignment b1 v = Var.with_alignment "" v)
  /\ Var.with_alignment (Var.alignment v) (Var.set_alignment b1 v)
     = Var.with_alignment (Var.alignment v) v.
Proof.
  unfold Var.set_alignment. split; [|split].
  - destruct (b2 >? 0)%Z, (b1 >? 0)%Z; reflexivity.
  - intros Hb. destruct (b1 >? 0)%Z eqn:E; [lia | reflexivity].
  - destruct (b1 >? 0)%Z; reflexivity.
Qed.

Lemma set_alignment_last_wins_witness :
  Var.alignment (Var.set_alignment (-4) w_example) = ""
  /\ Var.alignment (Var.set_alignment 2 (Var.set_alignment 16 w_example))
     = "alignas(16)".
Proof.
  destruct (set_alignment_last_wins (-4) 2 w_example) as (_ & H & _).
  destruct (set_alignment_last_wins 16 2 w_example) as (H2 & _ & _).
  split; [rewrite H by lia | rewrite H2]; reflexivity.
Defined.

Lemma zero_pads (D : list Z) :
  forallb int64_ok D = true ->
  forallb pad_ok (combine D (repeat [0; 0]%Z (length D))) = true
  /\ map padded_size (combine D (repeat [0; 0]%Z (length D))) = D.
Proof.
  induction D as [|d D IH]; intros H; [now split|].
  simpl in H. apply andb_true_iff in H as [Hd HD].
  destruct (IH HD) as [IH1 IH2]. simpl. split.
  - rewrite IH1. unfold pad_ok. simpl.
    rewrite !Z.add_0_r, Hd. reflexivity.
  - rewrite IH2. unfold padded_size. simpl. now rewrite !Z.add_0_r.
Qed.

(** A variable as constructed declares its logical sizes: the padding starts
    as one [[0, 0]] per axis, so an array of sizes [D] is declared with one
    bracket per size of [D], and a scalar with none. *)
Theorem fresh_variable_sizes (ty nm : string) (D : list Z) (al ix : Z)
    (init : option ndarray) (fmt : np_scalar -> nat -> string) (w : bool) :
  forallb int64_ok D = true ->
  let v := Var.__init__ ty nm (Some D) al ix init in
  let s := Var.__init__ ty nm None al ix init in
  well_formed v = true
  /\ declared_sizes v = D
  /\ fst (Var.get_def fmt w v)
     = Ok (Some (decl_text v (join "" (map bracket D)) (data_text fmt w v)))
  /\ fst (Var.get_def fmt w s)
     = Ok (Some (decl_text s "" (data_text fmt w s))).
Proof.
  intros HD v s. destruct (zero_pads D HD) as [Hp Hs].
  assert (Hv : Var.dim v = Some D /\ Var.pads v = repeat [0; 0]%Z (length D)
               /\ Var.decl_written v = false).
  { subst v. unfold Var.__init__, Var.set_alignment.
    destruct (al >? 0)%Z; repeat split. }
  destruct Hv as (Hdim & Hpads & Hf).
  assert (Hwf : well_formed v = true).
  { unfold well_formed. rewrite Hdim, Hpads. simpl.
    rewrite repeat_length, Nat.eqb_refl, HD, Hp. reflexivity. }
  assert (Hsz : declared_sizes v = D).
  { unfold declared_sizes. now rewrite Hdim, Hpads. }
  split; [exact Hwf|]. split; [exact Hsz|]. split.
  - rewrite (get_def_fresh fmt w v (dim_text v) Hf (get_dim_str_ok v Hwf)).
    unfold dim_text. now rewrite Hsz.
  - assert (Hs' : well_formed s = true /\ Var.decl_written s = false
                  /\ dim_text s = "").
    { subst s. unfold Var.__init__, Var.set_alignment.
      destruct (al >? 0)%Z; repeat split. }
    destruct Hs' as (Hwfs & Hfs & Hds).
    rewrite (get_def_fresh fmt w s (dim_text s) Hfs (get_dim_str_ok s Hwfs)).
    now rewrite Hds.
Qed.

Lemma fresh_variable_sizes_witness :
  fst (Var.get_def fmt0 false (Var.__init__ "float" "m" (Some [3; 4]%Z) 0 7 None))
  = Ok (Some ("static float m_7  [3][4] = { 0 };" ++ nl)).
Proof.
  destruct (fresh_variable_sizes "float" "m" [3; 4]%Z 0 7 None fmt0 false
              eq_refl) as (_ & _ & H & _).
  rewrite H. reflexivity.
Defined.

Lemma dim_entries_short : forall (i : nat) (D : list Z) (P : list (list Z))
    (d : Z) (j : list Z),
  forallb int64_ok D = true ->
  nth_error D i = Some d -> nth_error P i = Some j ->
  short_pad d j = true ->
  forallb pad_ok (firstn i (combine D P)) = true ->
  Var.dim_entries (combine (map Some D) P) = Raise IndexError.
Proof.
  induction i as [|i IH]; intros D P d j HD Hd Hj Hshort Hpre;
    destruct D as [|d0 D]; try discriminate;
    destruct P as [|j0 P]; try discriminate;
    simpl in HD; apply andb_true_iff in HD as [Hd0 HD]; simpl in Hd, Hj.
  - injection Hd as ->. injection Hj as ->.
    simpl. unfold Var.dim_entry.
    destruct j as [|lo [|hi rest]]; try discriminate; [reflexivity|].
    simpl in Hshort. apply andb_true_iff in Hshort as [Hlo Hsum].
    simpl. rewrite (np_add_exact d lo Hd0 Hlo Hsum). reflexivity.
  - simpl in Hpre. apply andb_true_iff in Hpre as [Hj0 Hpre].
    simpl. rewrite (dim_entry_ok d0 j0 Hd0 Hj0). simpl.
    rewrite (IH D P d j HD Hd Hj Hshort Hpre). reflexivity.
Qed.

(** [change_padding] checks the number of pads only.  A pad with fewer than
    two amounts is accepted, and the next [get_def] then raises [IndexError]
    without assigning anything to the variable. *)
Theorem unchecked_pad_raises (fmt : np_scalar -> nat -> string) (w : bool)
    (v : Var.t) (D : list Z) (P : list (list Z)) (i : nat) (d : Z)
    (j : list Z) :
  Var.dim v = Some D ->
  Var.decl_written v = false ->
  forallb int64_ok D = true ->
  length P = length D ->
  nth_error D i = Some d ->
  nth_error P i = Some j ->
  short_pad d j = true ->
  forallb pad_ok (firstn i (combine D P)) = true ->
  fst (Var.change_padding P v) = Ok tt
  /\ Var.get_def fmt w (snd (Var.change_padding P v))
     = (Raise IndexError, snd (Var.change_padding P v)).
Proof.
  intros Hdim Hf HD Hlen Hd Hj Hshort Hpre.
  unfold Var.change_padding. rewrite Hdim. simpl.
  rewrite Hlen, Nat.eqb_refl. simpl. split; [reflexivity|].
  assert (Hds : Var._get_dim_str (Var.with_pads P v) = Raise IndexError).
  { unfold Var._get_dim_str.
    change (Var.dim (Var.with_pads P v)) with (Var.dim v).
    change (Var.pads (Var.with_pads P v)) with P.
    rewrite Hdim. unfold atleast_1d. rewrite HD. cbn [bind].
    now rewrite (dim_entries_short i D P d j HD Hd Hj Hshort Hpre). }
  unfold Var.get_def.
  change (Var.decl_written (Var.with_pads P v)) with (Var.decl_written v).
  now rewrite Hf, Hds.
Qed.

Lemma unchecked_pad_raises_witness :
  fst (Var.change_padding [[1; 1]; [2]]%Z w_example) = Ok tt
  /\ fst (Var.get_def fmt0 true
            (snd (Var.change_padding [[1; 1]; [2]]%Z w_example)))
     = Raise IndexError.
Proof.
  destruct (unchecked_pad_raises fmt0 true w_example [3; 3]%Z
              [[1; 1]; [2]]%Z 1 3%Z [2]%Z
              eq_refl eq_refl eq_refl eq_refl eq_refl eq_refl eq_refl eq_refl)
    as [H1 H2].
  split; [exact H1 | now rewrite H2].
Defined.

(** [get_def] assigns the two text attributes and nothing else: whatever it
    returns, every attribute given at construction is as before, and so are
    the name, the pointer declaration and the dimension text. *)
Theorem get_def_keeps_attributes (fmt : np_scalar -> nat -> string)
    (w : bool) (v : Var.t) :
  let v' := snd (Var.get_def fmt w v) in
  Var.decl_written v' = Var.decl_written v
  /\ Var.index v' = Var.index v /\ Var.type v' = Var.type v
  /\ Var.name v' = Var.name v /\ Var.dim v' = Var.dim v
  /\ Var.alignment v' = Var.alignment v
  /\ Var.init_data v' = Var.init_data v /\ Var.pads v' = Var.pads v
  /\ Var.temporal_value v' = Var.temporal_value v
  /\ Var.__str__ v' = Var.__str__ v
  /\ fst (Var.get_pointer_decl v') = fst (Var.get_pointer_decl v)
  /\ Var._get_dim_str v' = Var._get_dim_str v.
Proof.
  destruct (Var.decl_written v) eqn:Hf.
  { rewrite (get_def_written fmt w v Hf). cbn [snd]. now repeat split. }
  destruct (Var._get_dim_str v) as [ds| | |] eqn:Hds.
  - rewrite (get_def_fresh fmt w v ds Hf Hds). cbn [snd].
    split; [exact Hf|]. do 9 (split; [reflexivity|]).
    split; [|exact Hds].
    unfold Var.get_pointer_decl. cbn [fst]. now rewrite !pointer_format.
  - unfold Var.get_def. rewrite Hf, Hds. cbn [snd]. now repeat split.
  - unfold Var.get_def. rewrite Hf, Hds. cbn [snd]. now repeat split.
  - unfold Var.get_def. rewrite Hf, Hds. cbn [snd]. now repeat split.
Qed.

(** With initializer data of zero samples the initializer is empty, not the
    zero literal; with one sample it is that sample, without a comma. *)
Theorem empty_data_empty_initializer (fmt : np_scalar -> nat -> string)
    (v : Var.t) (a : ndarray) :
  well_formed v = true ->
  Var.decl_written v = false ->
  Var.init_data v = Some a ->
  (np_buffer a = [] ->
   fst (Var.get_def fmt true v) = Ok (Some (decl_text v (dim_text v) "")))
  /\ (forall b, np_buffer a = [b] ->
      fst (Var.get_def fmt true v)
      = Ok (Some (decl_text v (dim_text v)
                            (fmt (NpScalar (np_dtype a) b) 15%nat)))).
Proof.
  intros Hwf Hf Hi.
  rewrite (get_def_fresh fmt true v (dim_text v) Hf (get_dim_str_ok v Hwf)).
  unfold data_text, flatten. rewrite Hi. simpl.
  split; [intros -> | intros b ->]; reflexivity.
Qed.

Lemma empty_data_empty_initializer_witness :
  fst (Var.get_def fmt0 true
         (Var.__init__ "float" "e" (Some [0]%Z) 0 2
            (Some {| np_dtype := "float32"; np_shape := [0]%Z;
                     np_buffer := [] |})))
  = Ok (Some ("static float e_2  [0] = {  };" ++ nl)).
Proof.
  destruct (empty_data_empty_initializer fmt0
              (Var.__init__ "float" "e" (Some [0]%Z) 0 2
                 (Some {| np_dtype := "float32"; np_shape := [0]%Z;
                          np_buffer := [] |}))
              _ eq_refl eq_refl eq_refl) as [H _].
  rewrite (H eq_refl). reflexivity.
Defined.

(** ** Expression *)

Lemma dict_set_fresh {V} (d : dict V) (k : string) (v : V) :
  ~ In k (dict_keys d) -> dict_set d k v = (d ++ [(k, v)])%list.
Proof.
  induction d as [|[k' v'] d IH]; intros H; [reflexivity|].
  simpl in *. destruct (String.eqb_spec k' k) as [E|E].
  - exfalso. apply H. now left.
  - rewrite IH; [reflexivity|]. intros Hin. apply H. now right.
Qed.

Lemma dict_get_app_fresh {V} (d1 d2 : dict V) (k : string) :
  ~ In k (dict_keys d1) -> dict_get (d1 ++ d2)%list k = dict_get d2 k.
Proof.
  induction d1 as [|[k' v'] d1 IH]; intros H; [reflexivity|].
  simpl in *. destruct (String.eqb_spec k' k) as [E|E].
  - exfalso. apply H. now left.
  - apply IH. intros Hin. apply H. now right.
Qed.

Lemma dict_get_None {V} (d : dict V) (k : string) :
  ~ In k (dict_keys d) -> dict_get d k = None.
Proof.
  intros H. rewrite <- (app_nil_r d). now rewrite dict_get_app_fresh.
Qed.

Lemma dict_get_In {V} (d : dict V) (k : string) (v : V) :
  NoDup (dict_keys d) -> In (k, v) d -> dict_get d k = Some v.
Proof.
  induction d as [|[k' v'] d IH]; intros Hnd Hin; [destruct Hin|].
  simpl in *. inversion Hnd as [|? ? Hk Hnd']; subst.
  destruct Hin as [E|Hin].
  - injection E as -> ->. now rewrite String.eqb_refl.
  - destruct (String.eqb_spec k' k) as [->|E].
    + exfalso. apply Hk. apply in_map_iff. now exists (k, v).
    + now apply IH.
Qed.

Lemma dict_get_value {V} (d : dict V) (k : string) (v : V) :
  dict_get d k = Some v -> In v (dict_values d).
Proof.
  induction d as [|[k' v'] d IH]; [discriminate|].
  simpl. destruct (String.eqb k' k).
  - intros E. injection E as ->. now left.
  - intros H. right. now apply IH.
Qed.

Lemma expression_init_fold (kwargs : list (string * addr)) :
  forall self : TreeNode,
    NoDup (dict_keys (edges self) ++ map fst kwargs) ->
    let self' :=
      fold_left (fun self a => add_edge (fst a) (snd a) "m_expr" self)
                kwargs self in
    edges self' = (edges self ++ expr_edges kwargs)%list
    /\ kind self' = kind self.
Proof.
  induction kwargs as [|[k a] kwargs IH]; intros self Hnd; simpl.
  - now rewrite app_nil_r.
  - assert (Hk : ~ In k (dict_keys (edges self))).
    { intros Hin. apply NoDup_remove_2 in Hnd. apply Hnd.
      apply in_or_app. now left. }
    destruct (IH (add_edge k a "m_expr" self)) as [IH1 IH2].
    + unfold add_edge. simpl. rewrite (dict_set_fresh _ _ _ Hk).
      unfold dict_keys in *. rewrite map_app. simpl.
      rewrite <- app_assoc. exact Hnd.
    + split; [|exact IH2]. rewrite IH1. unfold add_edge. simpl.
      rewrite (dict_set_fresh _ _ _ Hk), <- app_assoc. reflexivity.
Qed.

Lemma reserved_absent (kwargs : list (string * addr)) :
  existsb (fun a => Expression.reserved (fst a)) kwargs = false
  <-> ~ In "self" (map fst kwargs) /\ ~ In "snippet" (map fst kwargs).
Proof.
  induction kwargs as [|[k a] l IH]; simpl.
  - intuition.
  - rewrite orb_false_iff, IH. unfold Expression.reserved.
    rewrite orb_false_iff, !String.eqb_neq. intuition congruence.
Qed.

(** A call of the constructor with distinct keyword names, none of them
    [self] or [snippet], returns an expression that holds one edge per
    keyword, in call order, each of kind [m_expr]: a keyword looks up its
    argument, any other name is a missing edge, and the children by kind
    [m_expr] are the arguments in order.  A keyword named [self] or
    [snippet] makes the call raise [TypeError]. *)
Theorem expression_init_edges (snippet : string)
    (kwargs : list (string * addr)) :
  NoDup (map fst kwargs) ->
  (~ In "self" (map fst kwargs) -> ~ In "snippet" (map fst kwargs) ->
   exists self,
     Expression.__init__ snippet kwargs = Ok self
     /\ edges self = expr_edges kwargs
     /\ kind self = KExpression snippet
     /\ get_node_by_type "m_expr" self = map snd kwargs
     /\ (forall k a, In (k, a) kwargs -> get_node k self = Ok a)
     /\ (forall k, ~ In k (map fst kwargs) ->
           get_node k self = Raise (MissingEdgeError k)))
  /\ (In "self" (map fst kwargs) \/ In "snippet" (map fst kwargs) ->
      Expression.__init__ snippet kwargs = Raise TypeError).
Proof.
  intros Hnd. unfold Expression.__init__. split.
  - intros Hs Hn.
    assert (Hr : existsb (fun a => Expression.reserved (fst a)) kwargs = false)
      by (apply reserved_absent; now split).
    rewrite Hr. eexists. split; [reflexivity|].
    destruct (expression_init_fold kwargs
                {| edges := []; kind := KExpression snippet |} Hnd)
      as [He Hk].
    simpl in He.
    assert (Hkeys : dict_keys (expr_edges kwargs) = map fst kwargs).
    { unfold dict_keys, expr_edges. rewrite map_map. now apply map_ext. }
    split; [exact He|]. split; [exact Hk|]. split; [|split].
    + unfold get_node_by_type, out_edges, dict_values. rewrite He.
      unfold expr_edges. rewrite map_map. simpl.
      clear. induction kwargs as [|[k a] l IH]; [reflexivity|].
      simpl. now rewrite IH.
    + intros k a Hin. unfold get_node. rewrite He.
      rewrite (dict_get_In _ k (Edge.mk k "m_expr" a)); [reflexivity | |].
      * now rewrite Hkeys.
      * unfold expr_edges. apply in_map_iff. now exists (k, a).
    + intros k Hk'. unfold get_node. rewrite He, dict_get_None; [reflexivity|].
      now rewrite Hkeys.
  - intros Hin.
    destruct (existsb (fun a => Expression.reserved (fst a)) kwargs) eqn:Hr;
      [reflexivity|].
    apply reserved_absent in Hr. tauto.
Qed.

Lemma expression_init_edges_witness :
  (exists self,
     Expression.__init__ "{a} + {b}" [("a", 0%nat); ("b", 1%nat)] = Ok self
     /\ get_node "b" self = Ok 1%nat
     /\ get_node "c" self = Raise (MissingEdgeError "c"))
  /\ Expression.__init__ "{a}" [("a", 0%nat); ("self", 1%nat)]
     = Raise TypeError.
Proof.
  split.
  - assert (Hnd : NoDup (map fst [("a", 0%nat); ("b", 1%nat)])).
    { repeat constructor; simpl; intuition discriminate. }
    destruct (expression_init_edges "{a} + {b}" _ Hnd) as [H _].
    destruct H as (self & E & _ & _ & _ & H1 & H2).
    + simpl. intuition discriminate.
    + simpl. intuition discriminate.
    + exists self. split; [exact E|]. split.
      * apply H1. right. now left.
      * apply H2. simpl. intuition discriminate.
  - assert (Hnd : NoDup (map fst [("a", 0%nat); ("self", 1%nat)])).
    { repeat constructor; simpl; intuition discriminate. }
    destruct (expression_init_edges "{a}" _ Hnd) as [_ H].
    apply H. left. simpl. right. now left.
Defined.

Section FormatPrefix.
Context {V : Type} (render : V -> outcome string).

(** A prefix of literal text and bound fields renders to its substitution
    and leaves the rest to decide. *)
Lemma format_tokens_prefix (args : list V) (kw : dict V)
    (text : string -> string) (an : auto_number) (rest : list token) :
  forall pre,
    plain pre = true ->
    (forall k, In (TField k) pre ->
       exists v, dict_get kw k = Some v /\ render v = Ok (text k)) ->
    format_tokens render args kw an (pre ++ rest)
    = (s <- format_tokens render args kw an rest ;;
       Ok (substitute text pre ++ s)).
Proof.
  induction pre as [|t pre IH]; intros Hp H.
  - simpl. now destruct (format_tokens render args kw an rest).
  - simpl in Hp. apply andb_true_iff in Hp as [Ht Hp].
    assert (IH' := IH Hp (fun k Hk => H k (or_intror Hk))).
    destruct t as [c|k| |i|e|]; try discriminate; simpl.
    + rewrite IH'.
      now destruct (format_tokens render args kw an rest).
    + destruct (H k (or_introl eq_refl)) as (v & Hv & Hr).
      rewrite Hv, Hr. simpl. rewrite IH'.
      destruct (format_tokens render args kw an rest); simpl;
        try reflexivity.
      now rewrite app_assoc_s.
Qed.
End FormatPrefix.

(** The exception of a failing render is decided by the first token that is
    not literal text or a bound placeholder: an unbound placeholder raises
    [KeyError] with its name, a positional placeholder ([{}] or [{0}])
    raises [IndexError] because [__str__] passes keyword arguments only, and
    a lone brace raises [ValueError]. *)
Theorem expression_first_error (fuel : nat) (h : store) (a : addr)
    (self : TreeNode) (snippet : string) (pre rest : list token)
    (t : token) (text : string -> string) :
  nth_error h a = Some self ->
  kind self = KExpression snippet ->
  tokens snippet = (pre ++ t :: rest)%list ->
  plain pre = true ->
  (forall k, In (TField k) pre ->
     exists e, dict_get (edges self) k = Some e
               /\ str_node fuel h (Edge.target e) = Ok (text k)) ->
  (forall k, t = TField k -> dict_get (edges self) k = None ->
             str_node (S fuel) h a = Raise (KeyError k))
  /\ (t = TAuto \/ (exists i, t = TIndex i) ->
      str_node (S fuel) h a = Raise IndexError)
  /\ (forall e, t = TRaise e -> str_node (S fuel) h a = Raise e).
Proof.
  intros Ha Hk Htok Hp Hpre.
  rewrite (str_node_expression fuel h a self snippet Ha Hk).
  unfold format. rewrite Htok.
  rewrite (format_tokens_prefix _ [] (edges self) text ANS_INIT
             (t :: rest) pre Hp Hpre).
  split; [|split].
  - intros k -> Hnone. simpl. now rewrite Hnone.
  - intros [-> | [i ->]]; simpl; unfold py_index;
      rewrite ?nth_error_nil; reflexivity.
  - intros e ->. reflexivity.
Qed.

Lemma expression_first_error_witness :
  str_node 2 expr_store 4 = Raise (KeyError "c").
Proof.
  destruct (expression_first_error 1 expr_store 4 _ "{a}{c}"
              [TField "a"] [] (TField "c") (fun _ => "1")
              eq_refl eq_refl eq_refl eq_refl) as (H & _ & _).
  - intros k [E|[]]. injection E as <-. eexists. split; reflexivity.
  - apply (H "c"); reflexivity.
Defined.

(** ** IndexedVariable *)

Lemma py_str_int_inj (z1 z2 : Z) : py_str_int z1 = py_str_int z2 -> z1 = z2.
Proof.
  unfold py_str_int. intros E.
  assert (E' : Some (Z.to_int z1) = Some (Z.to_int z2)).
  { rewrite <- !NilEmpty.isi. now rewrite E. }
  injection E' as E'.
  rewrite <- (DecimalZ.of_to z1), <- (DecimalZ.of_to z2). now rewrite E'.
Qed.

Lemma py_str_int_not_var (z : Z) : py_str_int z <> "var".
Proof.
  unfold py_str_int. intros E.
  pose proof (NilEmpty.isi (Z.to_int z)) as H. rewrite E in H.
  vm_compute in H. discriminate H.
Qed.

Lemma index_edges_cons (k : nat) (a : addr) (l : list addr) :
  index_edges k (a :: l)
  = (py_str_int (Z.of_nat k),
     Edge.mk (py_str_int (Z.of_nat k)) "index" a) :: index_edges (S k) l.
Proof. reflexivity. Qed.

Lemma dict_set_app_fresh {V} (d1 d2 : dict V) (k : string) (v : V) :
  ~ In k (dict_keys d1) ->
  dict_set (d1 ++ d2)%list k v = (d1 ++ dict_set d2 k v)%list.
Proof.
  induction d1 as [|[k' v'] d1 IH]; intros H; [reflexivity|].
  simpl in *. destruct (String.eqb_spec k' k) as [E|E].
  - exfalso. apply H. now left.
  - rewrite IH; [reflexivity|]. intros Hin. apply H. now right.
Qed.

Lemma set_indices_from_edges : forall (l2 : list addr) (k : nat)
    (pre : dict Edge.t) (l1 : list addr) (self : TreeNode),
  (forall j, (k <= j)%nat ->
             ~ In (py_str_int (Z.of_nat j)) (dict_keys pre)) ->
  edges self = (pre ++ index_edges k l1)%list ->
  edges (IndexedVariable.set_indices_from k l2 self)
  = (pre ++ index_edges k (l2 ++ skipn (length l2) l1))%list
  /\ kind (IndexedVariable.set_indices_from k l2 self) = kind self.
Proof.
  induction l2 as [|i r IH]; intros k pre l1 self Hpre He.
  - simpl. now split.
  - simpl IndexedVariable.set_indices_from.
    set (key := py_str_int (Z.of_nat k)).
    set (e := Edge.mk key "index" i).
    assert (Hfresh : forall j, (S k <= j)%nat ->
              ~ In (py_str_int (Z.of_nat j))
                   (dict_keys (pre ++ [(key, e)])%list)).
    { intros j Hj Hin. unfold dict_keys in Hin. rewrite map_app in Hin.
      apply in_app_or in Hin as [Hin|[Hin|[]]].
      - apply (Hpre j); [lia | exact Hin].
      - simpl in Hin. apply py_str_int_inj in Hin. lia. }
    assert (Hk : ~ In key (dict_keys pre)) by (apply Hpre; lia).
    destruct l1 as [|a1 l1].
    + destruct (IH (S k) (pre ++ [(key, e)])%list [] (add_edge key i "index" self)
                  Hfresh) as [IH1 IH2].
      { unfold add_edge. simpl. rewrite He.
        rewrite (dict_set_app_fresh _ _ _ _ Hk). simpl.
        now rewrite app_nil_r. }
      split; [|exact IH2].
      rewrite IH1, !skipn_nil.
      change ((i :: r) ++ [])%list with (i :: (r ++ []))%list.
      rewrite index_edges_cons, <- app_assoc. reflexivity.
    + destruct (IH (S k) (pre ++ [(key, e)])%list l1
                  (add_edge key i "index" self) Hfresh) as [IH1 IH2].
      { unfold add_edge. simpl. rewrite He.
        rewrite (dict_set_app_fresh _ _ _ _ Hk), index_edges_cons.
        simpl. fold key. rewrite String.eqb_refl.
        now rewrite <- app_assoc. }
      split; [|exact IH2].
      rewrite IH1.
      change (skipn (length (i :: r)) (a1 :: l1)) with (skipn (length r) l1).
      change ((i :: r) ++ skipn (length r) l1)%list
        with (i :: (r ++ skipn (length r) l1))%list.
      rewrite index_edges_cons, <- app_assoc. reflexivity.
Qed.

Lemma index_edges_targets : forall (l : list addr) (k : nat),
  map Edge.target
      (filter (fun e => String.eqb (Edge.n_type e) "index")
              (dict_values (index_edges k l))) = l.
Proof.
  induction l as [|a l IH]; intros k; [reflexivity|].
  rewrite index_edges_cons. simpl. f_equal. apply IH.
Qed.

(** [set_indices] on a new [IndexedVariable] attaches the indices under the
    names [0], [1], ... in order, next to the edge [var].  A second call
    overwrites position by position: when it passes fewer indices than the
    first, the remaining indices of the first call stay attached. *)
Theorem set_indices_index_list (default_n_type : string) (var : addr)
    (padding_to_offset : bool) (l1 l2 : list addr) :
  default_n_type <> "index" ->
  let fresh := IndexedVariable.__init__ default_n_type var padding_to_offset in
  get_node_by_type "index" (IndexedVariable.set_indices l1 fresh) = l1
  /\ get_node "var" (IndexedVariable.set_indices l1 fresh) = Ok var
  /\ get_node_by_type "index"
       (IndexedVariable.set_indices l2 (IndexedVariable.set_indices l1 fresh))
     = (l2 ++ skipn (length l2) l1)%list
  /\ kind (IndexedVariable.set_indices l1 fresh)
     = KIndexedVariable padding_to_offset.
Proof.
  intros Hd fresh.
  set (pre := [("var", Edge.mk "var" default_n_type var)]).
  assert (Hpre : forall j, (0 <= j)%nat ->
            ~ In (py_str_int (Z.of_nat j)) (dict_keys pre)).
  { intros j _ [Hin|[]]. symmetry in Hin.
    exact (py_str_int_not_var _ Hin). }
  assert (Hby : forall l self,
            edges self = (pre ++ index_edges 0 l)%list ->
            get_node_by_type "index" self = l
            /\ get_node "var" self = Ok var).
  { intros l self He. unfold get_node_by_type, get_node, out_edges.
    rewrite He. simpl.
    destruct (String.eqb_spec default_n_type "index") as [E|_];
      [contradiction|].
    split; [apply index_edges_targets | reflexivity]. }
  destruct (set_indices_from_edges l1 0 pre [] fresh Hpre eq_refl)
    as [E1 K1].
  rewrite skipn_nil, app_nil_r in E1.
  destruct (set_indices_from_edges l2 0 pre l1
              (IndexedVariable.set_indices l1 fresh) Hpre E1) as [E2 _].
  destruct (Hby _ _ E1) as [H1 H2].
  destruct (Hby _ _ E2) as [H3 _].
  split; [exact H1|]. split; [exact H2|]. split; [exact H3 | exact K1].
Qed.

Lemma set_indices_index_list_witness :
  get_node_by_type "index"
    (IndexedVariable.set_indices [7%nat]
       (IndexedVariable.set_indices [1; 2; 3]%nat
          (IndexedVariable.__init__ "next" 0%nat true)))
  = [7; 2; 3]%nat.
Proof.
  assert (Hd : "next" <> "index") by discriminate.
  destruct (set_indices_index_list "next" 0%nat true [1; 2; 3]%nat [7%nat] Hd)
    as (_ & _ & H & _).
  exact H.
Defined.

Lemma join_cons (x : string) (l : list string) :
  join "" (x :: l) = x ++ join "" l.
Proof.
  unfold join. destruct l as [|y l]; simpl; [now rewrite app_empty_r|].
  reflexivity.
Qed.

Lemma list_index_first_pos (n : list addr) (i : addr) :
  In i n -> IndexedVariable.list_index n i = Ok (first_pos n i).
Proof.
  induction n as [|x n IH]; intros H; [destruct H|].
  simpl. destruct (Nat.eqb_spec x i) as [E|E]; [reflexivity|].
  destruct H as [H|H]; [contradiction|]. now rewrite (IH H).
Qed.

Lemma first_pos_nth (n : list addr) :
  NoDup n -> forall j i, nth_error n j = Some i -> first_pos n i = j.
Proof.
  induction 1 as [|x n Hx Hn IH]; intros j i Hj; [destruct j; discriminate|].
  simpl. destruct j as [|j]; simpl in Hj.
  - injection Hj as ->. now rewrite Nat.eqb_refl.
  - destruct (Nat.eqb_spec x i) as [->|E].
    + exfalso. apply Hx. eapply nth_error_In. eassumption.
    + f_equal. now apply IH.
Qed.

Section Subscripts.
Variables (str : addr -> outcome string) (h : store) (self : TreeNode)
          (n : list addr).

Lemma subscripts_cons (pto : bool) (i : addr) (r : list addr) (s : string) :
  IndexedVariable.subscripts str h self pto n (i :: r) s
  = (s' <- subscript_step str h self pto n i s ;;
     IndexedVariable.subscripts str h self pto n r s').
Proof.
  unfold subscript_step. simpl.
  destruct (str i) as [si| | |]; simpl; try reflexivity.
  destruct pto; [|reflexivity].
  destruct (get_node "var" self) as [var| | |]; simpl; try reflexivity.
  destruct (IndexedVariable.get_pads h var) as [pads| | |]; simpl;
    try reflexivity.
  destruct (IndexedVariable.list_index n i) as [k| | |]; simpl;
    try reflexivity.
  destruct (py_index pads k) as [row| | |]; simpl; try reflexivity.
  destruct (py_index row 0) as [lo| | |]; reflexivity.
Qed.

Lemma subscripts_app (pto : bool) (t1 t2 : list addr) : forall s,
  IndexedVariable.subscripts str h self pto n (t1 ++ t2) s
  = (s' <- IndexedVariable.subscripts str h self pto n t1 s ;;
     IndexedVariable.subscripts str h self pto n t2 s').
Proof.
  induction t1 as [|i t1 IH]; intros s; [reflexivity|].
  change ((i :: t1) ++ t2)%list with (i :: (t1 ++ t2))%list.
  rewrite !subscripts_cons.
  destruct (subscript_step str h self pto n i s); simpl; try reflexivity.
  apply IH.
Qed.

Variable text : addr -> string.

Lemma step_plain (i : addr) (s : string) :
  str i = Ok (text i) ->
  subscript_step str h self false n i s = Ok (s ++ subscript_plain text i).
Proof.
  intros Hi. unfold subscript_step, subscript_plain. rewrite Hi. simpl.
  now rewrite !app_assoc_s.
Qed.

Lemma step_offset (var : addr) (pads : list (list Z)) (row : list Z)
    (lead : addr -> Z) (i : addr) (s : string) :
  str i = Ok (text i) -> In i n ->
  get_node "var" self = Ok var ->
  IndexedVariable.get_pads h var = Ok pads ->
  nth_error pads (first_pos n i) = Some (lead i :: row) ->
  subscript_step str h self true n i s
  = Ok (s ++ subscript_offset text lead i).
Proof.
  intros Hi Hin Hv Hp Hrow. unfold subscript_step, subscript_offset.
  rewrite Hi, Hv. simpl. rewrite Hp. simpl.
  rewrite (list_index_first_pos n i Hin). simpl.
  unfold py_index at 1. rewrite Hrow. simpl.
  now rewrite !app_assoc_s.
Qed.

Lemma subscripts_steps (pto : bool) (sub : addr -> string) :
  forall todo s,
    (forall i s, In i todo ->
       subscript_step str h self pto n i s = Ok (s ++ sub i)) ->
    IndexedVariable.subscripts str h self pto n todo s
    = Ok (s ++ join "" (map sub todo)).
Proof.
  induction todo as [|i todo IH]; intros s H.
  - simpl. now rewrite app_empty_r.
  - rewrite subscripts_cons, (H i s (or_introl eq_refl)). simpl bind.
    rewrite IH; [|intros j s' Hj; apply H; now right].
    simpl map. now rewrite join_cons, app_assoc_s.
Qed.
End Subscripts.

Lemma str_node_indexed (fuel : nat) (h : store) (a : addr) (self : TreeNode)
    (pto : bool) (var : addr) (nm : string) :
  nth_error h a = Some self -> kind self = KIndexedVariable pto ->
  get_node "var" self = Ok var -> str_node fuel h var = Ok nm ->
  str_node (S fuel) h a
  = IndexedVariable.subscripts (str_node fuel h) h self pto
      (get_node_by_type "index" self) (get_node_by_type "index" self) nm.
Proof.
  intros Ha Hk Hv Hn. simpl. rewrite Ha, Hk.
  unfold IndexedVariable.__str__. rewrite Hv. simpl. now rewrite Hn.
Qed.

(** What an [IndexedVariable] renders to, given the text of the variable and
    of each index child: the variable's text followed by one bracketed
    subscript per index child, in attachment order.  With offset
    compensation the subscript of an index node adds the leading pad of the
    first axis at which that node is attached, which is its own axis whenever
    the index nodes are pairwise different. *)
Theorem indexed_variable_render (fuel : nat) (h : store) (a : addr)
    (self : TreeNode) (pto : bool) (var : addr) (nm : string)
    (text : addr -> string) :
  nth_error h a = Some self ->
  kind self = KIndexedVariable pto ->
  get_node "var" self = Ok var ->
  str_node fuel h var = Ok nm ->
  (forall i, In i (get_node_by_type "index" self) ->
             str_node fuel h i = Ok (text i)) ->
  let n := get_node_by_type "index" self in
  (pto = false ->
   str_node (S fuel) h a = Ok (nm ++ join "" (map (subscript_plain text) n)))
  /\ (pto = true ->
      forall pads lead,
        IndexedVariable.get_pads h var = Ok pads ->
        (forall i, In i n ->
           exists row, nth_error pads (first_pos n i) = Some (lead i :: row)) ->
        str_node (S fuel) h a
        = Ok (nm ++ join "" (map (subscript_offset text lead) n)))
  /\ (NoDup n -> forall j i, nth_error n j = Some i -> first_pos n i = j).
Proof.
  intros Ha Hk Hv Hn Htext n.
  rewrite (str_node_indexed fuel h a self pto var nm Ha Hk Hv Hn).
  fold n. split; [|split].
  - intros ->. apply subscripts_steps. intros i s Hi.
    apply step_plain. now apply Htext.
  - intros -> pads lead Hp Hrows. apply subscripts_steps. intros i s Hi.
    destruct (Hrows i Hi) as [row Hrow].
    eapply step_offset; eauto.
  - apply first_pos_nth.
Qed.

Lemma indexed_variable_render_witness :
  str_node 2 index_store 4 = Ok "A_0[i_1 + 1][j_2 + 2]"
  /\ str_node 2 plain_index_store 2 = Ok "A_0[i_1][i_1]".
Proof.
  split.
  - destruct (indexed_variable_render 1 index_store 4 _ true 0%nat "A_0"
                (fun i => if Nat.eqb i 1 then "i_1" else "j_2")
                eq_refl eq_refl eq_refl eq_refl) as (_ & H & _).
    + intros i [<-|[<-|[]]]; reflexivity.
    + rewrite (H eq_refl [[1; 0]; [2; 0]]%Z
                 (fun i => if Nat.eqb i 1 then 1%Z else 2%Z) eq_refl).
      * reflexivity.
      * intros i [<-|[<-|[]]]; eexists; reflexivity.
  - destruct (indexed_variable_render 1 plain_index_store 2 _ false 0%nat
                "A_0" (fun _ => "i_1") eq_refl eq_refl eq_refl eq_refl)
      as (H & _ & _).
    + intros i [<-|[<-|[]]]; reflexivity.
    + rewrite (H eq_refl). reflexivity.
Defined.

(** With offset compensation, pairwise different index nodes and more index
    nodes than the variable has pads (any index on a scalar, for one),
    rendering raises [IndexError]: the axis of the first index beyond the
    pads has no pad to read. *)
Theorem too_many_indices (fuel : nat) (h : store) (a : addr)
    (self : TreeNode) (var : addr) (nm : string) (text : addr -> string)
    (pads : list (list Z)) :
  nth_error h a = Some self ->
  kind self = KIndexedVariable true ->
  get_node "var" self = Ok var ->
  str_node fuel h var = Ok nm ->
  (forall i, In i (get_node_by_type "index" self) ->
             str_node fuel h i = Ok (text i)) ->
  IndexedVariable.get_pads h var = Ok pads ->
  (forall row, In row pads -> row <> []) ->
  NoDup (get_node_by_type "index" self) ->
  (length pads < length (get_node_by_type "index" self))%nat ->
  str_node (S fuel) h a = Raise IndexError.
Proof.
  intros Ha Hk Hv Hn Htext Hp Hrows Hnd Hlen.
  rewrite (str_node_indexed fuel h a self true var nm Ha Hk Hv Hn).
  set (n := get_node_by_type "index" self) in *.
  destruct (nth_error n (length pads)) as [i|] eqn:Hi;
    [|apply nth_error_None in Hi; lia].
  destruct (nth_error_split n (length pads) Hi) as (n1 & n2 & En & Hn1).
  assert (Hin : forall x, In x n1 -> In x n).
  { intros x Hx. rewrite En. apply in_or_app. now left. }
  assert (Hii : In i n).
  { rewrite En. apply in_or_app. right. now left. }
  set (lead := fun x => hd 0%Z (nth (first_pos n x) pads [])).
  rewrite En at 2. rewrite subscripts_app.
  rewrite (subscripts_steps (str_node fuel h) h self n true
             (subscript_offset text lead)).
  - cbn [bind]. rewrite subscripts_cons. unfold subscript_step.
    rewrite (Htext i Hii), Hv. simpl. rewrite Hp. simpl.
    rewrite (list_index_first_pos n i Hii). simpl.
    rewrite (first_pos_nth n Hnd (length pads) i Hi).
    unfold py_index at 1.
    assert (Hnone : nth_error pads (length pads) = None)
      by (apply nth_error_None; lia).
    now rewrite Hnone.
  - intros x s Hx.
    destruct (In_nth_error n1 x Hx) as [j Hj].
    assert (Hjlt : (j < length n1)%nat)
      by (apply nth_error_Some; congruence).
    assert (Hjn : nth_error n j = Some x).
    { rewrite En, nth_error_app1; assumption. }
    assert (Hpos : first_pos n x = j) by (now apply first_pos_nth).
    destruct (nth_error pads j) as [row|] eqn:Hrow;
      [|apply nth_error_None in Hrow; lia].
    assert (Hne : row <> []).
    { apply Hrows. eapply nth_error_In. eassumption. }
    destruct row as [|lo row]; [contradiction|].
    apply (step_offset (str_node fuel h) h self n text var pads row lead);
      auto.
    rewrite Hpos, Hrow. unfold lead. rewrite Hpos.
    now rewrite (nth_error_nth pads j [] Hrow).
Qed.

Lemma too_many_indices_witness :
  str_node 2 plain_index_store 3 = Raise IndexError.
Proof.
  apply (too_many_indices 1 plain_index_store 3 _ 1%nat "i_1"
           (fun _ => "A_0") [] eq_refl eq_refl eq_refl eq_refl).
  - intros i [<-|[]]. reflexivity.
  - reflexivity.
  - intros row [].
  - repeat constructor. intros [].
  - simpl. lia.
Defined.

(** Offset compensation reads the pads of the node under [var]: when that
    node is not a [Variable] (an expression, say) and there is an index,
    rendering raises [AttributeError]; without offset compensation the same
    access renders. *)
Theorem offset_needs_variable (fuel : nat) (h : store) (a : addr)
    (self base : TreeNode) (pto : bool) (var : addr) (nm : string)
    (i : addr) (rest : list addr) (text : addr -> string) :
  nth_error h a = Some self ->
  kind self = KIndexedVariable pto ->
  get_node "var" self = Ok var ->
  nth_error h var = Some base ->
  class_of (kind base) <> ClsVariable ->
  str_node fuel h var = Ok nm ->
  get_node_by_type "index" self = i :: rest ->
  (forall j, In j (i :: rest) -> str_node fuel h j = Ok (text j)) ->
  (pto = true -> str_node (S fuel) h a = Raise AttributeError)
  /\ (pto = false ->
      str_node (S fuel) h a
      = Ok (nm ++ join "" (map (subscript_plain text) (i :: rest)))).
Proof.
  intros Ha Hk Hv Hb Hc Hn Hidx Htext.
  rewrite (str_node_indexed fuel h a self pto var nm Ha Hk Hv Hn), Hidx.
  split; intros ->.
  - rewrite subscripts_cons. unfold subscript_step.
    rewrite (Htext i (or_introl eq_refl)), Hv. cbn [bind].
    unfold IndexedVariable.get_pads. rewrite Hb.
    destruct base as [es k]. simpl in Hc |- *.
    destruct k; try reflexivity. now contradiction Hc.
  - apply subscripts_steps. intros j s Hj.
    apply step_plain. now apply Htext.
Qed.

Lemma offset_needs_variable_witness :
  str_node 3 expr_index_store 3 = Raise AttributeError
  /\ str_node 3 expr_index_store 4 = Ok "1 + 2[1]".
Proof.
  assert (Hc : class_of (kind (returned (Expression.__init__ "{a} + {b}"
                                  [("a", 0%nat); ("b", 1%nat)])))
               <> ClsVariable) by discriminate.
  split.
  - destruct (offset_needs_variable 2 expr_index_store 3 _ _ true 2%nat
                "1 + 2" 0%nat [] (fun _ => "1")
                eq_refl eq_refl eq_refl eq_refl Hc eq_refl eq_refl)
      as [H _].
    + intros j [<-|[]]. reflexivity.
    + exact (H eq_refl).
  - destruct (offset_needs_variable 2 expr_index_store 4 _ _ false 2%nat
                "1 + 2" 0%nat [] (fun _ => "1")
                eq_refl eq_refl eq_refl eq_refl Hc eq_refl eq_refl)
      as [_ H].
    + intros j [<-|[]]. reflexivity.
    + rewrite (H eq_refl). reflexivity.
Defined.

(** ** The search actions *)


Section StackSearch.
Variables (h : store) (rank : addr -> nat).
Hypothesis Hok : store_ok rank h = true.
Context {T : Type} (mkT : list (list addr) -> list addr -> T)
        (act : TraverseAction T) (m : addr -> bool) (good : addr -> Prop).
Hypothesis Hpre : forall e res stk,
  pre_action act e (mkT res stk)
  = Ok (true, mkT res (stk ++ [Edge.target e])%list).
Hypothesis Hpost : forall e res stk top,
  good (Edge.target e) ->
  post_action act e (mkT res (stk ++ [top])%list)
  = Ok (mkT (if m (Edge.target e)
             then (res ++ [(stk ++ [top])%list])%list else res) stk).

Let entry (stk : list addr) (p : list Edge.t) : list addr :=
  (stk ++ map Edge.target p)%list.



End StackSearch.







(** A [SearchNode] keeps its result between traversals: used for a second
    traversal, it holds the paths of the first search followed by those of
    the second, and after each traversal its path stack is empty again. *)
Theorem search_reuse_accumulates (h : store) (rank : addr -> nat)
    (root1 root2 x : addr) (fuel : nat) :
  store_ok rank h = true ->
  (root1 < length h)%nat -> (root2 < length h)%nat ->
  (rank root1 < fuel)%nat -> (rank root2 < fuel)%nat ->
  exists r1 r2 st1 st2,
    SearchNode.search fuel h root1 x = Ok r1
    /\ SearchNode.search fuel h root2 x = Ok r2
    /\ traverse fuel h SearchNode.action root1 (SearchNode.__init__ x)
       = Ok st1
    /\ SearchNode.cur_path_stack st1 = []
    /\ traverse fuel h SearchNode.action root2 st1 = Ok st2
    /\ SearchNode.result st2 = (r1 ++ r2)%list
    /\ SearchNode.cur_path_stack st2 = [].
Proof.
  intros Hok Ha1 Ha2 Hr1 Hr2.
  pose proof (search_traverse h rank Hok x fuel root1 Hr1 Ha1 [] []) as T1.
  pose proof (search_traverse h rank Hok x fuel root2 Hr2 Ha2 [] []) as T2.
  simpl in T1, T2.
  eexists _, _, _, _.
  split; [unfold SearchNode.search, SearchNode.__init__; rewrite T1;
          reflexivity|].
  split; [unfold SearchNode.search, SearchNode.__init__; rewrite T2;
          reflexivity|].
  split; [exact T1|]. split; [reflexivity|].
  split; [apply (search_traverse h rank Hok x fuel root2 Hr2 Ha2)|].
  split; reflexivity.
Qed.

Lemma search_reuse_accumulates_witness :
  exists st1 st2,
    traverse 5 diamond SearchNode.action 4%nat (SearchNode.__init__ 1) = Ok st1
    /\ traverse 5 diamond SearchNode.action 2%nat st1 = Ok st2
    /\ SearchNode.result st2 = [[2; 1]; [3; 1]; [1]]%nat.
Proof.
  assert (H1 : (4 < length diamond)%nat) by (simpl; lia).
  assert (H2 : (2 < length diamond)%nat) by (simpl; lia).
  assert (H3 : (4 < 5)%nat) by lia.
  assert (H4 : (2 < 5)%nat) by lia.
  destruct (search_reuse_accumulates diamond (fun a => a) 4%nat 2%nat 1%nat 5
              eq_refl H1 H2 H3 H4)
    as (r1 & r2 & st1 & st2 & E1 & E2 & T1 & _ & T2 & R & _).
  exists st1, st2. split; [exact T1|]. split; [exact T2|].
  rewrite R. vm_compute in E1, E2.
  injection E1 as <-. injection E2 as <-. reflexivity.
Defined.

(** ** Rendering ends *)

Lemma bind_fuel {A B} (m : outcome A) (k : A -> outcome B) :
  m <> OutOfFuel -> (forall a, m = Ok a -> k a <> OutOfFuel) ->
  bind m k <> OutOfFuel.
Proof.
  intros Hm Hk. destruct m; simpl; try discriminate; [now apply Hk | congruence].
Qed.

Lemma py_index_fuel {A} (l : list A) (i : nat) : py_index l i <> OutOfFuel.
Proof. unfold py_index. now destruct (nth_error l i). Qed.

Lemma list_index_fuel (n : list addr) (i : addr) :
  IndexedVariable.list_index n i <> OutOfFuel.
Proof.
  induction n as [|x n IH]; simpl; [discriminate|].
  destruct (Nat.eqb x i); [discriminate|].
  apply bind_fuel; [exact IH | discriminate].
Qed.

Lemma get_node_target (name : string) (self : TreeNode) (a : addr) :
  get_node name self = Ok a ->
  exists e, In e (out_edges self) /\ Edge.target e = a.
Proof.
  unfold get_node. destruct (dict_get (edges self) name) as [e|] eqn:E;
    [|discriminate].
  intros H. injection H as <-. exists e. split; [|reflexivity].
  now apply (dict_get_value _ name).
Qed.

Lemma get_node_by_type_target (n_type : string) (self : TreeNode) (i : addr) :
  In i (get_node_by_type n_type self) ->
  exists e, In e (out_edges self) /\ Edge.target e = i.
Proof.
  unfold get_node_by_type. intros H.
  apply in_map_iff in H as (e & He & Hin).
  apply filter_In in Hin as [Hin _]. now exists e.
Qed.

Section RenderExt.
Variables (r1 r2 : addr -> outcome string).

Lemma format_tokens_render_ext (kw : dict Edge.t) :
  (forall k e, dict_get kw k = Some e ->
               r1 (Edge.target e) = r2 (Edge.target e)) ->
  forall ts an,
    format_tokens (fun e => r1 (Edge.target e)) [] kw an ts
    = format_tokens (fun e => r2 (Edge.target e)) [] kw an ts.
Proof.
  intros H. induction ts as [|t ts IH]; intros an; [reflexivity|].
  destruct t as [c|k| |i|e|]; simpl; try reflexivity.
  - now rewrite IH.
  - destruct (dict_get kw k) as [e|] eqn:Hk; [|reflexivity].
    rewrite (H k e Hk). destruct (r2 (Edge.target e)); simpl;
      try reflexivity.
    now rewrite IH.
  - destruct an; unfold py_index; rewrite ?nth_error_nil; reflexivity.
  - destruct an; unfold py_index; rewrite ?nth_error_nil; reflexivity.
Qed.

Lemma subscripts_ext (h : store) (self : TreeNode) (pto : bool)
    (n : list addr) : forall todo s,
  (forall i, In i todo -> r1 i = r2 i) ->
  IndexedVariable.subscripts r1 h self pto n todo s
  = IndexedVariable.subscripts r2 h self pto n todo s.
Proof.
  induction todo as [|i todo IH]; intros s H; [reflexivity|].
  rewrite !subscripts_cons. unfold subscript_step.
  rewrite (H i (or_introl eq_refl)).
  destruct (r2 i) as [si| | |]; try reflexivity.
  cbn [bind].
  match goal with
  | |- bind ?m _ = bind ?m _ => destruct m; try reflexivity
  end.
  cbn [bind]. apply IH. intros j Hj. apply H. now right.
Qed.
End RenderExt.

Section RenderFuel.
Variable r : addr -> outcome string.

Lemma format_tokens_fuel (kw : dict Edge.t) :
  (forall k e, dict_get kw k = Some e -> r (Edge.target e) <> OutOfFuel) ->
  forall ts an,
    format_tokens (fun e => r (Edge.target e)) [] kw an ts <> OutOfFuel.
Proof.
  intros H. induction ts as [|t ts IH]; intros an; [discriminate|].
  destruct t as [c|k| |i|e|]; simpl; try discriminate.
  - apply bind_fuel; [apply IH | discriminate].
  - destruct (dict_get kw k) as [e|] eqn:Hk; [|discriminate].
    apply bind_fuel; [now apply (H k) | intros t _].
    apply bind_fuel; [apply IH | discriminate].
  - destruct an; try discriminate;
      unfold py_index; rewrite ?nth_error_nil; discriminate.
  - destruct an; try discriminate;
      unfold py_index; rewrite ?nth_error_nil; discriminate.
Qed.

Lemma get_pads_fuel (h : store) (a : addr) :
  IndexedVariable.get_pads h a <> OutOfFuel.
Proof.
  unfold IndexedVariable.get_pads.
  destruct (nth_error h a) as [[es k]|]; [destruct k|]; discriminate.
Qed.

Lemma get_node_fuel (name : string) (self : TreeNode) :
  get_node name self <> OutOfFuel.
Proof. unfold get_node. now destruct (dict_get (edges self) name). Qed.

Lemma subscripts_fuel (h : store) (self : TreeNode) (pto : bool)
    (n : list addr) : forall todo s,
  (forall i, In i todo -> r i <> OutOfFuel) ->
  IndexedVariable.subscripts r h self pto n todo s <> OutOfFuel.
Proof.
  induction todo as [|i todo IH]; intros s H; [discriminate|].
  rewrite subscripts_cons.
  apply bind_fuel; [|intros s' _; apply IH; intros j Hj; apply H; now right].
  unfold subscript_step.
  apply bind_fuel; [apply H; now left | intros si _].
  apply bind_fuel; [|discriminate].
  destruct pto; [|discriminate].
  apply bind_fuel; [apply get_node_fuel | intros var _].
  apply bind_fuel; [apply get_pads_fuel | intros pads _].
  apply bind_fuel; [apply list_index_fuel | intros k _].
  apply bind_fuel; [apply py_index_fuel | intros row _].
  apply bind_fuel; [apply py_index_fuel | discriminate].
Qed.
End RenderFuel.

Lemma py_str_fuel (v : pyval) : py_str v <> OutOfFuel.
Proof. destruct v as [|[|]| | |]; discriminate. Qed.

Lemma var_str_fuel (v : Var.t) : Var.__str__ v <> OutOfFuel.
Proof.
  unfold Var.__str__.
  destruct (Var.temporal_value v) as [|b|z|t|] eqn:E;
    try (rewrite <- E; apply py_str_fuel).
  unfold format.
  change (tokens "{name}_{index}")
    with [TField "name"; TLit (ch "_"); TField "index"].
  discriminate.
Qed.

Section Termination.
Variables (h : store) (rank : addr -> nat).
Hypothesis Hok : store_ok rank h = true.

Lemma str_node_fuel : forall (f1 f2 : nat) (a : addr),
  (rank a < f1)%nat -> (rank a < f2)%nat ->
  str_node f1 h a = str_node f2 h a.
Proof.
  induction f1 as [|f1 IH]; intros f2 a H1 H2; [lia|].
  destruct f2 as [|f2]; [lia|]. simpl.
  destruct (nth_error h a) as [self|] eqn:Hs; [|reflexivity].
  assert (Hchild : forall e, In e (out_edges self) ->
            str_node f1 h (Edge.target e) = str_node f2 h (Edge.target e)).
  { intros e He.
    destruct (store_ok_edge h rank Hok a self e Hs He) as [Hr _].
    apply IH; lia. }
  destruct (kind self) as [snippet|c|v|pto]; try reflexivity.
  - unfold format. apply format_tokens_render_ext.
    intros k e Hk. apply Hchild. now apply (dict_get_value _ k).
  - unfold IndexedVariable.__str__.
    destruct (get_node "var" self) as [var| | |] eqn:Hv; try reflexivity.
    destruct (get_node_target _ _ _ Hv) as (e & He & <-).
    cbn [bind]. rewrite (Hchild e He).
    destruct (str_node f2 h (Edge.target e)); try reflexivity.
    cbn [bind]. apply subscripts_ext. intros i Hi.
    destruct (get_node_by_type_target _ _ _ Hi) as (e' & He' & <-).
    now apply Hchild.
Qed.

Lemma str_node_ends : forall (fuel : nat) (a : addr),
  (rank a < fuel)%nat -> str_node fuel h a <> OutOfFuel.
Proof.
  induction fuel as [|fuel IH]; intros a Hr; [lia|]. simpl.
  destruct (nth_error h a) as [self|] eqn:Hs; [|discriminate].
  assert (Hchild : forall e, In e (out_edges self) ->
            str_node fuel h (Edge.target e) <> OutOfFuel).
  { intros e He.
    destruct (store_ok_edge h rank Hok a self e Hs He) as [Hr' _].
    apply IH; lia. }
  destruct (kind self) as [snippet|c|v|pto].
  - unfold format. apply format_tokens_fuel.
    intros k e Hk. apply Hchild. now apply (dict_get_value _ k).
  - apply py_str_fuel.
  - apply var_str_fuel.
  - unfold IndexedVariable.__str__.
    apply bind_fuel; [apply get_node_fuel | intros var Hv].
    destruct (get_node_target _ _ _ Hv) as (e & He & <-).
    apply bind_fuel; [now apply Hchild | intros s _].
    apply subscripts_fuel. intros i Hi.
    destruct (get_node_by_type_target _ _ _ Hi) as (e' & He' & <-).
    now apply Hchild.
Qed.
End Termination.

(** On a store without cycles rendering a node ends: a recursion bound above
    the node's rank is never exhausted, and every such bound gives the same
    text or the same exception.  Shared children are rendered once per use,
    which the bound on the depth allows. *)
Theorem rendering_ends (h : store) (rank : addr -> nat) (a : addr)
    (fuel1 fuel2 : nat) :
  store_ok rank h = true ->
  (rank a < fuel1)%nat -> (rank a < fuel2)%nat ->
  str_node fuel1 h a <> OutOfFuel
  /\ str_node fuel1 h a = str_node fuel2 h a.
Proof.
  intros Hok H1 H2. split.
  - now apply (str_node_ends h rank Hok).
  - now apply (str_node_fuel h rank Hok).
Qed.

Lemma rendering_ends_witness :
  str_node 40 search_store 5 = Ok "A_0[i_1 + 1][i_1 + 1] * 2 + i_1".
Proof.
  assert (H1 : (5 < 40)%nat) by lia.
  assert (H2 : (5 < 6)%nat) by lia.
  destruct (rendering_ends search_store (fun a => a) 5%nat 40 6 eq_refl H1 H2)
    as [_ E].
  rewrite E. reflexivity.
Defined.
